(** * carlo: lib/http_request.js

    A shallow embedding of the [HttpRequest] class of carlo, the object the
    host builds for every [Fetch.requestPaused] notification, and the
    properties of its decision methods and of its handler chain.

    Layout
    - [Js]: the JavaScript library functions the class relies on
      ([String.prototype.toLowerCase], [Buffer.byteLength], [String(n)],
      [toString('base64')], truthiness).
    - [Protocol]: the values that travel to the CDP session.
    - [HttpRequest]: the class, method by method, in a small state monad.
    - [Chain]: the event driven by the calls its handlers make.
    - The commands and the invariant the statements are written with.
    - Lemmas on one call, on the chain and on whole runs; the theorems. *)

From Stdlib Require Import String Ascii List ZArith NArith Lia Bool DecimalString
  DecimalNat.
From Stdlib.Strings Require Import Byte.
Import ListNotations.
Open Scope string_scope.
Open Scope list_scope.


(* ===================================================================== *)
(** ** JavaScript library functions *)
(* ===================================================================== *)

Module Js.

(** A Node [Buffer]: a sequence of bytes. *)
Definition Buffer := list byte.

(** JavaScript strings are modelled by their UTF-8 bytes (Rocq [string]);
    header names and the texts of the claims are ASCII. *)

(** [String.prototype.toLowerCase] on a string of ASCII characters: the
    letters A..Z move to a..z, every other character is kept. Header names
    are HTTP tokens, hence ASCII; a statement that says which name is sent
    assumes it of the supplied names ([ascii_only] below). *)
Definition lower_ascii (c : ascii) : ascii :=
  let n := N_of_ascii c in
  if ((65 <=? n) && (n <=? 90))%N then ascii_of_N (n + 32) else c.

Fixpoint toLowerCase (s : string) : string :=
  match s with
  | EmptyString => EmptyString
  | String c rest => String (lower_ascii c) (toLowerCase rest)
  end.

(** [Buffer.from(str)]: the bytes of a string. *)
Definition Buffer_from (s : string) : Buffer := list_byte_of_string s.

(** [String(n)] for a non-negative integer: its decimal numeral. *)
Definition String_of_nat (n : nat) : string :=
  NilEmpty.string_of_uint (Nat.to_uint n).

(** Truthiness of a string or undefined: [undefined] and [''] are falsy. *)
Definition truthy_string (v : option string) : bool :=
  match v with
  | None => false
  | Some EmptyString => false
  | Some (String _ _) => true
  end.

(** Truthiness of an object or undefined: every object is truthy, also the
    empty one. *)
Definition truthy_object {A : Type} (v : option A) : bool :=
  match v with
  | None => false
  | Some _ => true
  end.

(** Truthiness of a number or undefined: [undefined] and [0] are falsy
    (numbers are integers here; NaN does not arise). *)
Definition truthy_number (v : option Z) : bool :=
  match v with
  | None => false
  | Some z => negb (z =? 0)%Z
  end.

(** [v || d] for a number or undefined [v] *)
Definition or_number (v : option Z) (d : Z) : Z :=
  match v with
  | Some z => if truthy_number v then z else d
  | None => d
  end.

(** *** base64, as [buf.toString('base64')] produces it: the standard
    alphabet, three bytes to four characters, padded with [=]. *)

Definition base64_alphabet : string :=
  "ABCDEFGHIJKLMNOPQRSTUVWXYZabcdefghijklmnopqrstuvwxyz0123456789+/".

Definition base64_char (sextet : N) : ascii :=
  match String.get (N.to_nat sextet) base64_alphabet with
  | Some c => c
  | None => "="%char
  end.

Fixpoint base64_encode (bs : Buffer) : string :=
  match bs with
  | [] => EmptyString
  | [a] =>
      let x := Byte.to_N a in
      String (base64_char (N.shiftr x 2))
        (String (base64_char (N.shiftl (N.land x 3) 4)) "==")
  | [a; b] =>
      let x := Byte.to_N a in
      let y := Byte.to_N b in
      String (base64_char (N.shiftr x 2))
        (String (base64_char (N.lor (N.shiftl (N.land x 3) 4) (N.shiftr y 4)))
           (String (base64_char (N.shiftl (N.land y 15) 2)) "="))
  | a :: b :: c :: rest =>
      let x := Byte.to_N a in
      let y := Byte.to_N b in
      let z := Byte.to_N c in
      String (base64_char (N.shiftr x 2))
        (String (base64_char (N.lor (N.shiftl (N.land x 3) 4) (N.shiftr y 4)))
           (String (base64_char (N.lor (N.shiftl (N.land y 15) 2) (N.shiftr z 6)))
              (String (base64_char (N.land z 63)) (base64_encode rest))))
  end.

(** The inverse table and the decoder, used to read an emitted body back. *)
Definition base64_value (c : ascii) : option N :=
  let n := N_of_ascii c in
  if ((65 <=? n) && (n <=? 90))%N then Some (n - 65)%N
  else if ((97 <=? n) && (n <=? 122))%N then Some (n - 71)%N
  else if ((48 <=? n) && (n <=? 57))%N then Some (n + 4)%N
  else if (n =? 43)%N then Some 62%N
  else if (n =? 47)%N then Some 63%N
  else None.

Definition byte_of_N (n : N) : byte :=
  match Byte.of_N (N.land n 255) with
  | Some b => b
  | None => x00
  end.

Fixpoint base64_decode (s : string) : option Buffer :=
  match s with
  | EmptyString => Some []
  | String c1 (String c2 (String c3 (String c4 rest))) =>
      match base64_value c1, base64_value c2 with
      | Some v1, Some v2 =>
          let b1 := byte_of_N (N.lor (N.shiftl v1 2) (N.shiftr v2 4)) in
          if Ascii.eqb c3 "=" then
            if Ascii.eqb c4 "=" then
              match rest with EmptyString => Some [b1] | _ => None end
            else None
          else
            match base64_value c3 with
            | Some v3 =>
                let b2 := byte_of_N (N.lor (N.shiftl v2 4) (N.shiftr v3 2)) in
                if Ascii.eqb c4 "=" then
                  match rest with EmptyString => Some [b1; b2] | _ => None end
                else
                  match base64_value c4, base64_decode rest with
                  | Some v4, Some tail =>
                      Some (b1 :: b2 :: byte_of_N (N.lor (N.shiftl v3 6) v4) :: tail)
                  | _, _ => None
                  end
            | None => None
            end
      | _, _ => None
      end
  | _ => None
  end.

(** *** The [body] handed to [fulfill]

    The JSDoc types it [!Buffer|undefined]; callers also write a string
    literal there, and JavaScript evaluates the same expressions on it, so
    the three cases are kept apart. *)
Inductive body_value :=
| BodyUndefined
| BodyBuffer (b : Buffer)
| BodyString (s : string).

(** Truthiness: a Buffer is an object (truthy also when empty), a string is
    truthy when it is not empty. *)
Definition truthy_body (body : body_value) : bool :=
  match body with
  | BodyUndefined => false
  | BodyBuffer _ => true
  | BodyString s => truthy_string (Some s)
  end.

(** [Buffer.byteLength(body)]: the length of a Buffer, the number of UTF-8
    bytes of a string. Only evaluated on a truthy body. *)
Definition byteLength (body : body_value) : nat :=
  match body with
  | BodyUndefined => 0
  | BodyBuffer b => List.length b
  | BodyString s => String.length s
  end.

(** [x.toString('base64')]: [Buffer.prototype.toString] encodes;
    [String.prototype.toString] takes no argument and returns the string
    itself. *)
Definition toString_base64 (x : body_value) : string :=
  match x with
  | BodyUndefined => EmptyString
  | BodyBuffer b => base64_encode b
  | BodyString s => s
  end.

(** [body || Buffer.from('')] *)
Definition or_empty_buffer (body : body_value) : body_value :=
  if truthy_body body then body else BodyBuffer (Buffer_from EmptyString).

End Js.

(* ===================================================================== *)
(** ** What is sent to the session *)
(* ===================================================================== *)

Module Protocol.

(** One element of [responseHeaders]: the object [{name, value}]. *)
Record header_entry := HeaderEntry { name : string; value : string }.

(** An [Object<string,string>], its keys in [Object.keys] order. *)
Definition header_map := list (string * string).

(** The values that occur as command parameters. *)
Inductive jsvalue :=
| VString (s : string)
| VNumber (n : Z)
| VHeaderMap (h : header_map)
| VHeaderList (l : list header_entry).

(** A plain object literal: its own properties in insertion order. *)
Definition object := list (string * jsvalue).

(** [obj[key]] *)
Fixpoint get (obj : object) (key : string) : option jsvalue :=
  match obj with
  | [] => None
  | (k, v) :: rest => if String.eqb k key then Some v else get rest key
  end.

(** [obj[key] = v]: an existing property keeps its place, a new one goes
    last. *)
Fixpoint set (obj : object) (key : string) (v : jsvalue) : object :=
  match obj with
  | [] => [(key, v)]
  | (k, old) :: rest =>
      if String.eqb k key then (k, v) :: rest else (k, old) :: set rest key v
  end.

(** [Object.keys(obj)] *)
Definition keys (obj : object) : list string := map fst obj.

(** A command: the method name and the parameter object of
    [session.send(method, params)]. *)
Record command := Command { method_name : string; parameters : object }.

End Protocol.
Import Protocol.

(* ===================================================================== *)
(** ** The class [HttpRequest] *)
(* ===================================================================== *)

Module HttpRequest.

(** A registered handler: a callback, known by its identity. The event
    calls it ([handler(this)]); what the callback then does with the event
    are calls of the methods below (see [Chain]). Every element of the
    array is a function, so [if (handler)] tests whether [shift] found one. *)
Definition handler := nat.

(** [params.request] of the [Fetch.requestPaused] notification: its
    properties [url], [method] and [headers] (the accessors below have these
    names). *)
Record Request := {
  request_url : string;
  request_method : string;
  request_headers : option header_map
}.

(** [params]: the notification the event is built from, with its
    properties [requestId], [request] and [resourceType]. *)
Record Params := {
  requestId : string;
  request : Request;
  resourceType_ : string
}.

(** The fields of the object. [session_] is the identity of the CDP
    session the event sends on. *)
Record t := {
  session_ : nat;
  params_ : Params;
  handlers_ : list handler;
  done_ : bool
}.

(** What an execution does that is visible from outside the object. *)
Inductive effect :=
| Sent (session : nat) (c : command)   (* session.send(method, params) *)
| Invoked (h : handler)                (* handler(this) *)
| Threw (message : string).            (* throw new Error(message) *)

(** The object and the effects so far, oldest first. *)
Record world := { this : t; trace : list effect }.

(** What a decision method returns: the promise of the command's
    acknowledgment, or a promise rejected with an error. *)
Inductive promise :=
| PromiseOfSend (c : command)
| PromiseRejected (message : string).

(** *** The monad of method bodies *)

Definition M (A : Type) : Type := world -> A * world.

Definition ret {A : Type} (a : A) : M A := fun w => (a, w).

Definition bind {A B : Type} (m : M A) (k : A -> M B) : M B :=
  fun w => k (fst (m w)) (snd (m w)).

Declare Scope method_scope.
Delimit Scope method_scope with method.
Notation "x <- m ;; k" := (bind m (fun x => k))
  (at level 61, m at next level, right associativity) : method_scope.
Notation "m ;; k" := (bind m (fun _ => k))
  (at level 61, right associativity) : method_scope.
Local Open Scope method_scope.

(** [this.f] *)
Definition read {A : Type} (f : t -> A) : M A := fun w => (f (this w), w).

(** [this.done_ = b] *)
Definition assign_done (b : bool) : M unit :=
  fun w =>
    (tt, {| this := {| session_ := session_ (this w);
                       params_ := params_ (this w);
                       handlers_ := handlers_ (this w);
                       done_ := b |};
            trace := trace w |}).

(** [this.handlers_.shift()]: removes and returns the first element of the
    array, [undefined] when it is empty. *)
Definition shift_handlers : M (option handler) :=
  fun w =>
    match handlers_ (this w) with
    | [] => (None, w)
    | h :: rest =>
        (Some h, {| this := {| session_ := session_ (this w);
                               params_ := params_ (this w);
                               handlers_ := rest;
                               done_ := done_ (this w) |};
                    trace := trace w |})
    end.

Definition emit (e : effect) : M unit :=
  fun w => (tt, {| this := this w; trace := trace w ++ [e] |}).

(** [this.session_.send(method, params)] *)
Definition session_send (method : string) (params : object) : M promise :=
  s <- read session_ ;;
  emit (Sent s (Command method params)) ;;
  ret (PromiseOfSend (Command method params)).

(** [debugServer(tag, url)]: the debug log, which does not touch the event
    or the session. *)
Definition debugServer (tag url : string) : M unit := ret tt.

(** *** Accessors *)

(** [url() { return this.params_.request.url; }] *)
Definition url : M string := read (fun o => request_url (request (params_ o))).

(** [method() { return this.params_.request.method; }] *)
Definition method : M string :=
  read (fun o => request_method (request (params_ o))).

(** [headers() { return this.params_.request.headers || {}; }] *)
Definition headers : M header_map :=
  read (fun o =>
          match request_headers (request (params_ o)) with
          | Some h => h
          | None => []
          end).

(** [resourceType() { return this.params_.resourceType; }] *)
Definition resourceType : M string := read (fun o => resourceType_ (params_ o)).

(** *** Decision methods *)

(** [abort()] *)
Definition abort : M promise :=
  u <- url ;;
  debugServer "abort" u ;;
  assign_done true ;;
  id <- read (fun o => requestId (params_ o)) ;;
  session_send "Fetch.failRequest"
    [("requestId", VString id); ("errorReason", VString "Failed")].

(** [fail()] *)
Definition fail : M promise :=
  u <- url ;;
  debugServer "fail" u ;;
  assign_done true ;;
  id <- read (fun o => requestId (params_ o)) ;;
  session_send "Fetch.failRequest"
    [("requestId", VString id); ("errorReason", VString "Failed")].

(** [async resolve_(params)]: the body runs at the call, up to its
    [return]; a [throw] in it rejects the promise the call returns. *)
Definition resolve_ (params : object) : M promise :=
  u <- url ;;
  debugServer "resolve" u ;;
  d <- read done_ ;;
  if d then
    emit (Threw "Already resolved given request") ;;
    ret (PromiseRejected "Already resolved given request")
  else
    id <- read (fun o => requestId (params_ o)) ;;
    let params := Protocol.set params "requestId" (VString id) in
    assign_done true ;;
    session_send "Fetch.continueRequest" params.

(** [callNextHandler_()] *)
Definition callNextHandler_ : M unit :=
  u <- url ;;
  debugServer "next handler" u ;;
  handler <- shift_handlers ;;
  match handler with
  | Some h => emit (Invoked h)
  | None => resolve_ [] ;; ret tt
  end.

(** [continue()] *)
Definition continue : M unit :=
  u <- url ;;
  debugServer "continue" u ;;
  callNextHandler_.

(** The argument of [deferToBrowser], when it is an object. *)
Record Overrides := {
  overrides_url : option string;
  overrides_method : option string;
  overrides_headers : option header_map
}.

(** [overrides && overrides.f], as a condition *)
Definition and_field {A : Type} (overrides : option Overrides)
    (f : Overrides -> option A) (truthy : option A -> bool) : option A :=
  match overrides with
  | None => None
  | Some o => if truthy (f o) then f o else None
  end.

(** [if (c) params.key = v] *)
Definition set_if {A : Type} (c : option A) (inj : A -> jsvalue)
    (key : string) (params : object) : object :=
  match c with
  | Some v => Protocol.set params key (inj v)
  | None => params
  end.

(** [deferToBrowser(overrides)] *)
Definition deferToBrowser (overrides : option Overrides) : M promise :=
  u <- url ;;
  debugServer "deferToBrowser" u ;;
  let params : object := [] in
  let params :=
    set_if (and_field overrides overrides_url Js.truthy_string) VString
      "url" params in
  let params :=
    set_if (and_field overrides overrides_method Js.truthy_string) VString
      "method" params in
  let params :=
    set_if (and_field overrides overrides_headers Js.truthy_object) VHeaderMap
      "headers" params in
  resolve_ params.

(** The object [fulfill] destructures: [{status, headers, body}]. *)
Record FulfillOptions := {
  status : option Z;
  headers_ : option header_map;
  body : Js.body_value
}.

(** The loop [for (const header of Object.keys(headers))]: one pass over
    the keys, carrying [responseHeaders] and [hasContentLength]. *)
Fixpoint shape_headers (headers : header_map)
    (responseHeaders : list header_entry) (hasContentLength : bool)
    : list header_entry * bool :=
  match headers with
  | [] => (responseHeaders, hasContentLength)
  | (header, v) :: rest =>
      let headerName := Js.toLowerCase header in
      let hasContentLength :=
        if String.eqb headerName "content-length" then true
        else hasContentLength in
      shape_headers rest
        (responseHeaders ++ [HeaderEntry headerName v]) hasContentLength
  end.

(** [fulfill({status, headers, body})] *)
Definition fulfill (options : FulfillOptions) : M promise :=
  u <- url ;;
  debugServer "fulfill" u ;;
  let status := Js.or_number (status options) 200 in
  let responseHeaders : list header_entry := [] in
  let hasContentLength := false in
  let '(responseHeaders, hasContentLength) :=
    match headers_ options with
    | Some headers => shape_headers headers responseHeaders hasContentLength
    | None => (responseHeaders, hasContentLength)
    end in
  let responseHeaders :=
    if Js.truthy_body (body options) && negb hasContentLength
    then responseHeaders ++
         [HeaderEntry "content-length"
            (Js.String_of_nat (Js.byteLength (body options)))]
    else responseHeaders in
  let responseBuffer := Js.or_empty_buffer (body options) in
  assign_done true ;;
  id <- read (fun o => requestId (params_ o)) ;;
  session_send "Fetch.fulfillRequest"
    [("requestId", VString id);
     ("responseCode", VNumber status);
     ("responseHeaders", VHeaderList responseHeaders);
     ("body", VString (Js.toString_base64 responseBuffer))].

(** [new HttpRequest(session, params, handlers)] *)
Definition new (session : nat) (params : Params) (handlers : list handler)
    : world :=
  snd (callNextHandler_
         {| this := {| session_ := session;
                       params_ := params;
                       handlers_ := handlers;
                       done_ := false |};
            trace := [] |}).

End HttpRequest.

(* ===================================================================== *)
(** ** The event and its handlers *)
(* ===================================================================== *)

(** A handler is code outside the class. The event hands itself to it
    ([handler(this)], recorded as [Invoked h]); from then on the handler may
    call the decision methods, at once or after awaiting other work.

    The call of the handler is the last statement of [callNextHandler_] that
    has an effect, and [callNextHandler_] is the last statement of [continue]
    and of the constructor: a method the handler calls while it runs finds
    the object as the calling method leaves it, and nothing of the calling
    method runs after the handler returns. One event is therefore driven by
    the sequence of the method calls made on it, in the order they are made,
    each tagged here with the handler that makes it. *)

Module Chain.
Import HttpRequest.

Inductive call :=
| CallAbort
| CallFail
| CallContinue
| CallDeferToBrowser (overrides : option Overrides)
| CallFulfill (options : FulfillOptions).

(** One method call; the caller drops the returned promise. *)
Definition perform (c : call) : M unit :=
  match c with
  | CallAbort => bind abort (fun _ => ret tt)
  | CallFail => bind fail (fun _ => ret tt)
  | CallContinue => continue
  | CallDeferToBrowser o => bind (deferToBrowser o) (fun _ => ret tt)
  | CallFulfill o => bind (fulfill o) (fun _ => ret tt)
  end.

Definition step (c : call) (w : world) : world := snd (perform c w).

(** The calls of the handlers, in the order they are made. *)
Fixpoint run (calls : list (handler * call)) (w : world) : world :=
  match calls with
  | [] => w
  | (_, c) :: rest => run rest (step c w)
  end.

(** The commands sent so far, oldest first. *)
Fixpoint sent_of (tr : list effect) : list command :=
  match tr with
  | [] => []
  | Sent _ c :: rest => c :: sent_of rest
  | _ :: rest => sent_of rest
  end.

Definition sent (w : world) : list command := sent_of (trace w).

(** The handlers invoked so far, oldest first. *)
Fixpoint invoked_of (tr : list effect) : list handler :=
  match tr with
  | [] => []
  | Invoked h :: rest => h :: invoked_of rest
  | _ :: rest => invoked_of rest
  end.

Definition invoked (w : world) : list handler := invoked_of (trace w).

(** The resolution conflicts raised so far. *)
Fixpoint conflicts_of (tr : list effect) : nat :=
  match tr with
  | [] => 0
  | Threw _ :: rest => S (conflicts_of rest)
  | _ :: rest => conflicts_of rest
  end.

Definition conflicts (w : world) : nat := conflicts_of (trace w).

Definition was_invoked (h : handler) (w : world) : bool :=
  existsb (Nat.eqb h) (invoked w).

(** Only a handler that has been handed the event calls its methods. *)
Fixpoint callers_invoked (calls : list (handler * call)) (w : world) : bool :=
  match calls with
  | [] => true
  | (h, c) :: rest => was_invoked h w && callers_invoked rest (step c w)
  end.

(** The handlers that call [continue()], one entry per call. *)
Fixpoint continue_callers (calls : list (handler * call)) : list handler :=
  match calls with
  | [] => []
  | (h, CallContinue) :: rest => h :: continue_callers rest
  | _ :: rest => continue_callers rest
  end.

(** [h] calls [continue()] somewhere in [calls]. *)
Definition calls_continue (h : handler) (calls : list (handler * call)) : Prop :=
  In (h, CallContinue) calls.

End Chain.

(** *** Handlers that decide while they run

    The same event with the handlers executed in place: [body h] lists the
    method calls handler [h] makes on the event before it returns, and
    [handler(this)] runs them inside [callNextHandler_]. [fuel] bounds the
    depth of handlers calling [continue()] inside handlers. The result is
    the event after the handler has returned, and the calls that were made,
    in the order they were made. *)

Module Nested.
Import HttpRequest Chain.

Section Bodies.

Variable body : handler -> list call.

(** One call [c] of handler [h] on the event reached so far; [invoke_next]
    runs the handler that [continue()] shifts off the queue. *)
Definition call_in_place
    (invoke_next : handler -> world -> option (world * list (handler * call)))
    (h : handler) (acc : option (world * list (handler * call))) (c : call)
    : option (world * list (handler * call)) :=
  match acc with
  | None => None
  | Some (w, made) =>
      match c, handlers_ (this w) with
      | CallContinue, next :: _ =>
          match invoke_next next (step CallContinue w) with
          | Some (w', inner) => Some (w', made ++ (h, c) :: inner)
          | None => None
          end
      | _, _ => Some (step c w, made ++ [(h, c)])
      end
  end.

(** [handler(this)] for handler [h]. *)
Fixpoint invoke (fuel : nat) (h : handler) (w : world)
    : option (world * list (handler * call)) :=
  match fuel with
  | 0 => None
  | S fuel => fold_left (call_in_place (invoke fuel) h) (body h) (Some (w, []))
  end.

(** [new HttpRequest(session, params, handlers)], the first handler run in
    place. *)
Definition construct (fuel : nat) (s : nat) (p : Params) (hs : list handler)
    : option (world * list (handler * call)) :=
  match hs with
  | [] => Some (new s p [], [])
  | h :: _ => invoke fuel h (new s p hs)
  end.

End Bodies.

End Nested.

Import HttpRequest Chain.

(* ===================================================================== *)
(** ** Notions derived from the class, used to state its properties *)
(* ===================================================================== *)

(** The object after [this.done_ = true]. *)
Definition resolved (o : HttpRequest.t) : HttpRequest.t :=
  {| session_ := session_ o; params_ := params_ o;
     handlers_ := handlers_ o; done_ := true |}.

(** The object after [this.handlers_.shift()] left [rest]. *)
Definition shifted (o : HttpRequest.t) (rest : list handler) : HttpRequest.t :=
  {| session_ := session_ o; params_ := params_ o;
     handlers_ := rest; done_ := done_ o |}.

(** The command of [abort] and [fail]. *)
Definition failRequest (o : HttpRequest.t) : command :=
  Command "Fetch.failRequest"
    [("requestId", VString (requestId (params_ o)));
     ("errorReason", VString "Failed")].

(** The command of [resolve_(params)]. *)
Definition continueRequest (o : HttpRequest.t) (params : object) : command :=
  Command "Fetch.continueRequest"
    (Protocol.set params "requestId" (VString (requestId (params_ o)))).

(** The object as the constructor's assignments leave it. *)
Definition fresh (s : nat) (p : Params) (handlers : list handler) : HttpRequest.t :=
  {| session_ := s; params_ := p; handlers_ := handlers; done_ := false |}.

(** The parameter object [deferToBrowser] builds before [resolve_] adds the
    request id. *)
Definition override_params (overrides : option Overrides) : object :=
  set_if (and_field overrides overrides_headers Js.truthy_object) VHeaderMap
    "headers"
    (set_if (and_field overrides overrides_method Js.truthy_string) VString
       "method"
       (set_if (and_field overrides overrides_url Js.truthy_string) VString
          "url" [])).

(** [responseHeaders] as [fulfill] sends it. *)
Definition response_headers (options : FulfillOptions) : list header_entry :=
  let '(responseHeaders, hasContentLength) :=
    match headers_ options with
    | Some headers => shape_headers headers [] false
    | None => ([], false)
    end in
  if Js.truthy_body (body options) && negb hasContentLength
  then responseHeaders ++
       [HeaderEntry "content-length"
          (Js.String_of_nat (Js.byteLength (body options)))]
  else responseHeaders.

(** The command of [fulfill(options)]. *)
Definition fulfillRequest (o : HttpRequest.t) (options : FulfillOptions) : command :=
  Command "Fetch.fulfillRequest"
    [("requestId", VString (requestId (params_ o)));
     ("responseCode", VNumber (Js.or_number (status options) 200));
     ("responseHeaders", VHeaderList (response_headers options));
     ("body", VString (Js.toString_base64 (Js.or_empty_buffer (body options))))].

(** The entry [fulfill] pushes for a supplied header. *)
Definition entry_of (kv : string * string) : header_entry :=
  HeaderEntry (Js.toLowerCase (fst kv)) (snd kv).

(** The test [headerName === 'content-length']. *)
Definition names_content_length (kv : string * string) : bool :=
  String.eqb (Js.toLowerCase (fst kv)) "content-length".

(** What holds of an event built on the registration list [hs] after the
    calls [pre], when no handler calls [continue()] twice: the handlers
    invoked and the queue make up [hs]; the first handler has been invoked;
    every invoked handler but the last one has called [continue()]; and a
    handler that has called [continue()] is an invoked one, the last one
    only if the queue is empty. *)
Record chain_inv (hs : list handler) (pre : list (handler * call)) (w : world)
    : Prop := {
  inv_split : invoked w ++ handlers_ (this w) = hs;
  inv_started : hs <> [] -> invoked w <> [];
  inv_continued :
    forall j hj, S j < length (invoked w) -> nth_error hs j = Some hj ->
                 calls_continue hj pre;
  inv_callers :
    forall h, In h (continue_callers pre) ->
              exists j, nth_error hs j = Some h /\
                        (S j < length (invoked w) \/
                         (S j = length (invoked w) /\ handlers_ (this w) = []))
}.


Module Sample.

Definition params : Params :=
  {| requestId := "interception-1";
     request := {| request_url := "https://domain/index.html";
                   request_method := "GET";
                   request_headers := None |};
     resourceType_ := "Document" |}.

Definition session : nat := 7.

(** Three registered handlers. *)
Definition three : list handler := [0; 1; 2].

(** What they do when invoked: the first calls [continue()] twice, the
    other two abort. *)
Definition continue_twice (h : handler) : list call :=
  match h with
  | 0 => [CallContinue; CallContinue]
  | _ => [CallAbort]
  end.

End Sample.


(* ===================================================================== *)
(** ** Notions for the further properties *)
(* ===================================================================== *)

(** The message of the error [resolve_] throws. *)
Definition conflict_message : string := "Already resolved given request".

(** What one call adds to the trace, method by method: [abort], [fail] and
    [fulfill] send; [deferToBrowser] sends or throws, by [done_];
    [continue()] invokes the front handler, or sends or throws when the queue
    is empty. *)
Definition effects (c : call) (w : world) : list effect :=
  match c with
  | CallAbort => [Sent (session_ (this w)) (failRequest (this w))]
  | CallFail => [Sent (session_ (this w)) (failRequest (this w))]
  | CallFulfill options =>
      [Sent (session_ (this w)) (fulfillRequest (this w) options)]
  | CallDeferToBrowser overrides =>
      if done_ (this w) then [Threw conflict_message]
      else [Sent (session_ (this w))
              (continueRequest (this w) (override_params overrides))]
  | CallContinue =>
      match handlers_ (this w) with
      | h :: _ => [Invoked h]
      | [] =>
          if done_ (this w) then [Threw conflict_message]
          else [Sent (session_ (this w)) (continueRequest (this w) [])]
      end
  end.

(** The methods that send without looking at [done_]. *)
Definition unguarded (c : call) : bool :=
  match c with
  | CallAbort | CallFail | CallFulfill _ => true
  | CallContinue | CallDeferToBrowser _ => false
  end.

Fixpoint count_unguarded (calls : list (handler * call)) : nat :=
  match calls with
  | [] => 0
  | (_, c) :: rest =>
      (if unguarded c then 1 else 0) + count_unguarded rest
  end.

(** Every character of the string is ASCII (below 128). On such a string
    [String.prototype.toLowerCase] changes the letters A..Z and nothing
    else, which is [Js.toLowerCase]. *)
Fixpoint ascii_only (s : string) : bool :=
  match s with
  | EmptyString => true
  | String c rest => (N_of_ascii c <? 128)%N && ascii_only rest
  end.

(** An upper-case ASCII letter. *)
Definition is_upper (c : ascii) : bool :=
  ((65 <=? N_of_ascii c) && (N_of_ascii c <=? 90))%N.

(** No upper-case ASCII letter in the string. *)
Fixpoint no_upper (s : string) : bool :=
  match s with
  | EmptyString => true
  | String c rest => negb (is_upper c) && no_upper rest
  end.

(** The header mapping [fulfill] walks: [headers] when given, else none. *)
Definition supplied (options : FulfillOptions) : header_map :=
  match headers_ options with
  | Some h => h
  | None => []
  end.

(** [P] holds of every number below [n]; decides finite facts on bytes and
    sextets. *)
Definition below (n : nat) (P : N -> bool) : bool :=
  forallb (fun i => P (N.of_nat i)) (seq 0 n).

(* ===================================================================== *)
(** ** How one call changes the event *)
(* ===================================================================== *)

Section Tally.

Lemma sent_of_app (a b : list effect) : sent_of (a ++ b) = sent_of a ++ sent_of b.
Proof.
  induction a as [|e a IH]; simpl; [reflexivity|].
  destruct e; simpl; rewrite IH; reflexivity.
Qed.

Lemma sent_of_invoked (hs : list handler) : sent_of (map Invoked hs) = [].
Proof. induction hs as [|h rest IH]; simpl; [reflexivity | exact IH]. Qed.

Lemma invoked_of_app (a b : list effect) :
  invoked_of (a ++ b) = invoked_of a ++ invoked_of b.
Proof.
  induction a as [|e a IH]; simpl; [reflexivity|].
  destruct e; simpl; rewrite IH; reflexivity.
Qed.

Lemma conflicts_of_app (a b : list effect) :
  conflicts_of (a ++ b) = conflicts_of a + conflicts_of b.
Proof.
  induction a as [|e a IH]; simpl; [reflexivity|].
  destruct e; simpl; rewrite IH; reflexivity.
Qed.

End Tally.

Section Steps.

Variable w : world.

Lemma step_abort :
  step CallAbort w =
  {| this := resolved (this w);
     trace := trace w ++ [Sent (session_ (this w)) (failRequest (this w))] |}.
Proof. reflexivity. Qed.

Lemma step_fail :
  step CallFail w =
  {| this := resolved (this w);
     trace := trace w ++ [Sent (session_ (this w)) (failRequest (this w))] |}.
Proof. reflexivity. Qed.

Lemma resolve_pending (params : object) :
  done_ (this w) = false ->
  snd (resolve_ params w) =
  {| this := resolved (this w);
     trace := trace w ++
              [Sent (session_ (this w)) (continueRequest (this w) params)] |}.
Proof.
  intros H. unfold resolve_, bind, read, url, debugServer, ret. simpl.
  rewrite H. reflexivity.
Qed.

Lemma resolve_conflict (params : object) :
  done_ (this w) = true ->
  snd (resolve_ params w) =
  {| this := this w;
     trace := trace w ++ [Threw "Already resolved given request"] |}.
Proof.
  intros H. unfold resolve_, bind, read, url, debugServer, ret. simpl.
  rewrite H. reflexivity.
Qed.

Lemma step_continue_next (h : handler) (rest : list handler) :
  handlers_ (this w) = h :: rest ->
  step CallContinue w =
  {| this := shifted (this w) rest; trace := trace w ++ [Invoked h] |}.
Proof.
  intros H.
  unfold step, perform, continue, callNextHandler_, bind, shift_handlers,
    read, url, debugServer, ret.
  simpl. rewrite H. reflexivity.
Qed.

Lemma step_continue_last :
  handlers_ (this w) = [] ->
  step CallContinue w = snd (resolve_ [] w).
Proof.
  intros H.
  unfold step, perform, continue, callNextHandler_, bind, shift_handlers,
    read, url, debugServer, ret.
  simpl. rewrite H. reflexivity.
Qed.

End Steps.

Section MoreSteps.

Variable w : world.

Lemma step_deferToBrowser (overrides : option Overrides) :
  step (CallDeferToBrowser overrides) w =
  snd (resolve_ (override_params overrides) w).
Proof. reflexivity. Qed.

Lemma step_fulfill (options : FulfillOptions) :
  step (CallFulfill options) w =
  {| this := resolved (this w);
     trace := trace w ++
              [Sent (session_ (this w)) (fulfillRequest (this w) options)] |}.
Proof.
  unfold step, perform, fulfill, fulfillRequest, response_headers, bind.
  destruct (match headers_ options with
            | Some headers => shape_headers headers [] false
            | None => ([], false)
            end) as [rh has].
  reflexivity.
Qed.

(** [resolve_] in one equation. *)
Lemma resolve_cases (params : object) :
  snd (resolve_ params w) =
  if done_ (this w)
  then {| this := this w;
          trace := trace w ++ [Threw "Already resolved given request"] |}
  else {| this := resolved (this w);
          trace := trace w ++
                   [Sent (session_ (this w)) (continueRequest (this w) params)] |}.
Proof.
  destruct (done_ (this w)) eqn:D.
  - apply resolve_conflict; assumption.
  - apply resolve_pending; assumption.
Qed.

(** No call touches [params_] or [session_]. *)
Lemma step_frame (c : call) :
  params_ (this (step c w)) = params_ (this w) /\
  session_ (this (step c w)) = session_ (this w).
Proof.
  destruct c.
  - rewrite step_abort. split; reflexivity.
  - rewrite step_fail. split; reflexivity.
  - destruct (handlers_ (this w)) as [|h rest] eqn:Q.
    + rewrite (step_continue_last w Q), resolve_cases.
      destruct (done_ (this w)); split; reflexivity.
    + rewrite (step_continue_next w h rest Q). split; reflexivity.
  - rewrite step_deferToBrowser, resolve_cases.
    destruct (done_ (this w)); split; reflexivity.
  - rewrite step_fulfill. split; reflexivity.
Qed.

(** Only [continue()] on a non-empty queue takes a handler off it, and
    that handler is the one invoked. *)
Lemma step_queue (c : call) :
  handlers_ (this (step c w)) =
    match c, handlers_ (this w) with
    | CallContinue, _ :: rest => rest
    | _, q => q
    end /\
  invoked (step c w) =
    invoked w ++
    match c, handlers_ (this w) with
    | CallContinue, h :: _ => [h]
    | _, _ => []
    end.
Proof.
  unfold invoked.
  destruct c.
  - rewrite step_abort. simpl. rewrite invoked_of_app. simpl.
    destruct (handlers_ (this w)); split; reflexivity.
  - rewrite step_fail. simpl. rewrite invoked_of_app. simpl.
    destruct (handlers_ (this w)); split; reflexivity.
  - destruct (handlers_ (this w)) as [|h rest] eqn:Q.
    + rewrite (step_continue_last w Q), resolve_cases.
      destruct (done_ (this w)); simpl; rewrite invoked_of_app; simpl;
        rewrite Q; split; reflexivity.
    + rewrite (step_continue_next w h rest Q). simpl. rewrite invoked_of_app.
      split; reflexivity.
  - rewrite step_deferToBrowser, resolve_cases.
    destruct (done_ (this w)); simpl; rewrite invoked_of_app; simpl;
      destruct (handlers_ (this w)); split; reflexivity.
  - rewrite step_fulfill. simpl. rewrite invoked_of_app. simpl.
    destruct (handlers_ (this w)); split; reflexivity.
Qed.

End MoreSteps.

Section Construction.

Variables (s : nat) (p : Params).

(** With no handler the constructor issues the default decision. *)
Lemma new_empty :
  new s p [] =
  {| this := resolved (fresh s p []);
     trace := [Sent s (continueRequest (fresh s p []) [])] |}.
Proof. reflexivity. Qed.

(** With handlers the constructor invokes the first one. *)
Lemma new_first (h : handler) (rest : list handler) :
  new s p (h :: rest) = {| this := fresh s p rest; trace := [Invoked h] |}.
Proof. reflexivity. Qed.

End Construction.

(* ===================================================================== *)
(** ** The handler chain *)
(* ===================================================================== *)

Section Callers.

Lemma continue_callers_app (a b : list (handler * call)) :
  continue_callers (a ++ b) = continue_callers a ++ continue_callers b.
Proof.
  induction a as [|[h c] a IH]; simpl; [reflexivity|].
  destruct c; simpl; rewrite IH; reflexivity.
Qed.

Lemma continue_callers_In (h : handler) (l : list (handler * call)) :
  In h (continue_callers l) <-> calls_continue h l.
Proof.
  unfold calls_continue.
  induction l as [|[h' c] l IH]; simpl; [tauto|].
  destruct c; simpl; rewrite IH; split; intros H;
    try (right; exact H);
    try (destruct H as [H|H]; [discriminate H | exact H]).
  - destruct H as [H|H]; [left; congruence | right; exact H].
  - destruct H as [H|H]; [left; congruence | right; exact H].
Qed.

Lemma was_invoked_In (h : handler) (w : world) :
  was_invoked h w = true <-> In h (invoked w).
Proof.
  unfold was_invoked. rewrite existsb_exists. split.
  - intros [x [Hx E]]. apply Nat.eqb_eq in E. subst x. exact Hx.
  - intros H. exists h. split; [exact H | apply Nat.eqb_refl].
Qed.

End Callers.

Section ChainOrder.

(** The registration list the event is built with; a callback is
    registered once. *)
Variable hs : list handler.
Hypothesis hs_distinct : NoDup hs.

Lemma registered_once (i j : nat) (h : handler) :
  nth_error hs i = Some h -> nth_error hs j = Some h -> i = j.
Proof.
  intros Hi Hj.
  apply (proj1 (NoDup_nth_error hs) hs_distinct).
  - apply nth_error_Some. congruence.
  - congruence.
Qed.

Lemma invoked_position (w : world) (h : handler) :
  invoked w ++ handlers_ (this w) = hs ->
  In h (invoked w) ->
  exists i, i < length (invoked w) /\ nth_error hs i = Some h.
Proof.
  intros Hs Hin. apply In_nth_error in Hin. destruct Hin as [i Hi].
  assert (Hlt : i < length (invoked w)) by (apply nth_error_Some; congruence).
  exists i. split; [exact Hlt|].
  rewrite <- Hs, nth_error_app1 by exact Hlt. exact Hi.
Qed.

Lemma position_invoked (w : world) (k : nat) (h : handler) :
  invoked w ++ handlers_ (this w) = hs ->
  nth_error hs k = Some h ->
  k < length (invoked w) ->
  In h (invoked w).
Proof.
  intros Hs Hk Hlt. rewrite <- Hs, nth_error_app1 in Hk by exact Hlt.
  apply nth_error_In with k. exact Hk.
Qed.

Lemma chain_inv_new (s : nat) (p : Params) : chain_inv hs [] (new s p hs).
Proof.
  destruct hs as [|h rest].
  - rewrite new_empty. constructor; unfold invoked; simpl.
    + reflexivity.
    + intros H; congruence.
    + intros j hj H; inversion H.
    + intros h [].
  - rewrite new_first. constructor; unfold invoked; simpl.
    + reflexivity.
    + intros _; discriminate.
    + intros j hj H; lia.
    + intros h' [].
Qed.

Lemma chain_inv_step (pre : list (handler * call)) (w : world)
    (h : handler) (c : call) :
  chain_inv hs pre w ->
  was_invoked h w = true ->
  (c = CallContinue -> ~ In h (continue_callers pre)) ->
  chain_inv hs (pre ++ [(h, c)]) (step c w).
Proof.
  intros [Hs Hst Hc Hcal] Hinv Hfresh.
  destruct (step_queue w c) as [Hq Hi].
  assert (Hkeep : forall x, calls_continue x pre ->
                            calls_continue x (pre ++ [(h, c)])).
  { intros x Hx. unfold calls_continue in *. apply in_or_app. left. exact Hx. }
  destruct c; cbv beta iota in Hq, Hi;
    try (rewrite app_nil_r in Hi;
         constructor;
         [ rewrite Hq, Hi; exact Hs
         | rewrite Hi; exact Hst
         | rewrite Hi; intros j hj Hj Hn; apply Hkeep; eauto
         | rewrite Hi, Hq, continue_callers_app; cbn [continue_callers];
           rewrite app_nil_r; exact Hcal ]).
  (* continue() *)
  specialize (Hfresh eq_refl).
  apply was_invoked_In in Hinv.
  destruct (invoked_position w h Hs Hinv) as [i [Hlt Hi_h]].
  assert (Hlast : S i = length (invoked w)).
  { destruct (Nat.eq_dec (S i) (length (invoked w))) as [E|N]; [exact E|].
    exfalso. apply Hfresh. apply continue_callers_In.
    apply (Hc i h); [lia | exact Hi_h]. }
  destruct (handlers_ (this w)) as [|h' rest] eqn:Q.
  - (* the queue is empty: the default decision *)
    rewrite app_nil_r in Hi.
    constructor.
    + rewrite Hq, Hi. exact Hs.
    + rewrite Hi. exact Hst.
    + rewrite Hi. intros j hj Hj Hn. apply Hkeep. eauto.
    + rewrite continue_callers_app. simpl. rewrite Hi, Hq.
      intros x Hx. apply in_app_or in Hx. destruct Hx as [Hx|[Hx|[]]].
      * exact (Hcal x Hx).
      * subst x. exists i. split; [exact Hi_h|]. right. split; [exact Hlast | reflexivity].
  - (* the next handler is invoked *)
    constructor.
    + rewrite Hq, Hi, <- app_assoc. exact Hs.
    + rewrite Hi. intros _ E. apply app_eq_nil in E. destruct E; discriminate.
    + rewrite Hi, length_app. simpl. intros j hj Hj Hn.
      destruct (Nat.eq_dec j i) as [E|N].
      * subst j. assert (hj = h) by congruence. subst hj.
        unfold calls_continue. apply in_or_app. right. left. reflexivity.
      * apply Hkeep. apply (Hc j hj); [lia | exact Hn].
    + rewrite continue_callers_app. simpl. rewrite Hi, length_app. simpl.
      intros x Hx. apply in_app_or in Hx. destruct Hx as [Hx|[Hx|[]]].
      * destruct (Hcal x Hx) as [j [Hj [Hlt'|[_ Habs]]]]; [|discriminate].
        exists j. split; [exact Hj|]. left. lia.
      * subst x. exists i. split; [exact Hi_h|]. left. lia.
Qed.

Lemma chain_inv_run (calls pre : list (handler * call)) (w : world) :
  chain_inv hs pre w ->
  callers_invoked calls w = true ->
  NoDup (continue_callers (pre ++ calls)) ->
  chain_inv hs (pre ++ calls) (run calls w).
Proof.
  revert pre w. induction calls as [|[h c] rest IH]; intros pre w Hinv Hval Hnd.
  - rewrite app_nil_r. exact Hinv.
  - simpl in Hval. apply andb_true_iff in Hval. destruct Hval as [Hh Hrest].
    simpl.
    replace (pre ++ (h, c) :: rest) with ((pre ++ [(h, c)]) ++ rest) in *
      by (rewrite <- app_assoc; reflexivity).
    apply IH; [|exact Hrest|exact Hnd].
    apply chain_inv_step; [exact Hinv|exact Hh|].
    intros ->. rewrite !continue_callers_app in Hnd. simpl in Hnd.
    rewrite <- app_assoc in Hnd. simpl in Hnd.
    apply NoDup_remove_2 in Hnd. intros Hin. apply Hnd.
    apply in_or_app. left. exact Hin.
Qed.

End ChainOrder.

(* ===================================================================== *)
(** ** What holds of every run *)
(* ===================================================================== *)

Section Runs.

(** [params_] and [session_] are the ones the event was built with. *)
Lemma run_frame (calls : list (handler * call)) (w : world) :
  params_ (this (run calls w)) = params_ (this w) /\
  session_ (this (run calls w)) = session_ (this w).
Proof.
  revert w. induction calls as [|[h c] rest IH]; intros w; simpl.
  - split; reflexivity.
  - destruct (IH (step c w)) as [Hp Hs].
    destruct (step_frame w c) as [Hp' Hs'].
    split; congruence.
Qed.

(** The handlers invoked and the handlers still queued always make up the
    same list: every call of [continue()] moves at most one handler, the
    front one, from the queue to the end of the invoked ones. *)
Lemma run_queue (calls : list (handler * call)) (w : world) :
  invoked (run calls w) ++ handlers_ (this (run calls w)) =
  invoked w ++ handlers_ (this w).
Proof.
  revert w. induction calls as [|[h c] rest IH]; intros w; simpl.
  - reflexivity.
  - rewrite IH. destruct (step_queue w c) as [Hq Hi]. rewrite Hq, Hi.
    destruct c; cbv beta iota; try (rewrite app_nil_r; reflexivity).
    destruct (handlers_ (this w)) as [|h' q].
    + rewrite app_nil_r. reflexivity.
    + rewrite <- app_assoc. reflexivity.
Qed.

(** A pending event whose queue holds [q] takes [length q + 1] calls of
    [continue()] to its default decision: [q] is invoked in order, then the
    continue command is sent with the request id alone. *)
Lemma run_continue_through (q : list handler) :
  forall (callers : list handler) (w : world),
    handlers_ (this w) = q ->
    done_ (this w) = false ->
    length callers = S (length q) ->
    trace (run (map (fun h => (h, CallContinue)) callers) w) =
    trace w ++ map Invoked q ++
    [Sent (session_ (this w)) (continueRequest (this w) [])].
Proof.
  induction q as [|h q IH]; intros callers w Hq Hd Hlen.
  - destruct callers as [|c [|c' callers]]; simpl in Hlen; try discriminate.
    simpl. rewrite (step_continue_last w Hq), (resolve_pending w [] Hd).
    reflexivity.
  - destruct callers as [|c callers]; simpl in Hlen; [discriminate|].
    simpl. rewrite (step_continue_next w h q Hq).
    rewrite IH; simpl; try reflexivity; try assumption; try lia.
    rewrite <- app_assoc. reflexivity.
Qed.

(** Whatever the handlers do, the number of handlers invoked is one more
    than the number of calls of [continue()], capped by the length of the
    queue: every call of [continue()] moves the chain by one. *)
Lemma run_invoked_count (calls : list (handler * call)) (w : world) :
  length (invoked (run calls w)) =
  Nat.min (length (invoked w) + length (handlers_ (this w)))
          (length (invoked w) + length (continue_callers calls)).
Proof.
  revert w. induction calls as [|[h c] rest IH]; intros w.
  - simpl. lia.
  - cbn [run]. rewrite IH. destruct (step_queue w c) as [Hq Hi]. rewrite Hq, Hi.
    destruct c; cbv beta iota; cbn [continue_callers];
      try (rewrite app_nil_r; reflexivity).
    destruct (handlers_ (this w)) as [|h' q];
      rewrite length_app; simpl; lia.
Qed.

Lemma invoked_count (s : nat) (p : Params) (hs : list handler)
    (calls : list (handler * call)) :
  length (invoked (run calls (new s p hs))) =
  Nat.min (length hs) (S (length (continue_callers calls))).
Proof.
  rewrite run_invoked_count. destruct hs as [|h rest].
  - rewrite new_empty. reflexivity.
  - rewrite new_first. unfold invoked. simpl. lia.
Qed.

(** No handler is invoked twice. *)
Lemma invoked_once (s : nat) (p : Params) (hs : list handler)
    (calls : list (handler * call)) :
  NoDup hs -> NoDup (invoked (run calls (new s p hs))).
Proof.
  intros Hnd.
  assert (E : invoked (run calls (new s p hs)) ++
              handlers_ (this (run calls (new s p hs))) = hs).
  { rewrite run_queue. destruct hs; reflexivity. }
  rewrite <- E in Hnd. apply NoDup_app_remove_r in Hnd. exact Hnd.
Qed.

(** Once resolved, always resolved. *)
Lemma resolved_stays (c : call) (w : world) :
  done_ (this w) = true -> done_ (this (step c w)) = true.
Proof.
  intros Hd. destruct c.
  - reflexivity.
  - reflexivity.
  - destruct (handlers_ (this w)) as [|h rest] eqn:Q.
    + rewrite (step_continue_last w Q), (resolve_conflict w [] Hd). exact Hd.
    + rewrite (step_continue_next w h rest Q). exact Hd.
  - rewrite step_deferToBrowser, (resolve_conflict w _ Hd). exact Hd.
  - rewrite step_fulfill. reflexivity.
Qed.

(** On a resolved event [continue()] and [deferToBrowser] send nothing. *)
Lemma guarded_on_resolved (w : world) (overrides : option Overrides) :
  done_ (this w) = true ->
  sent (step CallContinue w) = sent w /\
  sent (step (CallDeferToBrowser overrides) w) = sent w.
Proof.
  intros Hd. unfold sent. split.
  - destruct (handlers_ (this w)) as [|h rest] eqn:Q.
    + rewrite (step_continue_last w Q), (resolve_conflict w [] Hd). simpl.
      rewrite sent_of_app, app_nil_r. reflexivity.
    + rewrite (step_continue_next w h rest Q). simpl.
      rewrite sent_of_app, app_nil_r. reflexivity.
  - rewrite step_deferToBrowser, (resolve_conflict w _ Hd). simpl.
    rewrite sent_of_app, app_nil_r. reflexivity.
Qed.

End Runs.

(* ===================================================================== *)
(** ** Handlers run in place make the same runs *)
(* ===================================================================== *)

Section NestedRuns.

Variable body : handler -> list call.

Lemma run_app (a b : list (handler * call)) (w : world) :
  run (a ++ b) w = run b (run a w).
Proof.
  revert w. induction a as [|[h c] a IH]; intros w; simpl; [reflexivity|].
  apply IH.
Qed.

Lemma callers_invoked_app (a b : list (handler * call)) (w : world) :
  callers_invoked (a ++ b) w =
  callers_invoked a w && callers_invoked b (run a w).
Proof.
  revert w. induction a as [|[h c] a IH]; intros w; simpl; [reflexivity|].
  rewrite IH, andb_assoc. reflexivity.
Qed.

Lemma step_was_invoked (h : handler) (c : call) (w : world) :
  was_invoked h w = true -> was_invoked h (step c w) = true.
Proof.
  rewrite !was_invoked_In. destruct (step_queue w c) as [_ Hi]. rewrite Hi.
  intros H. apply in_or_app. left. exact H.
Qed.

Lemma run_was_invoked (h : handler) (calls : list (handler * call)) (w : world) :
  was_invoked h w = true -> was_invoked h (run calls w) = true.
Proof.
  revert w. induction calls as [|[h' c] rest IH]; intros w H; simpl; [exact H|].
  apply IH, step_was_invoked, H.
Qed.

Lemma invoke_unfold (fuel : nat) (h : handler) (w : world) :
  Nested.invoke body (S fuel) h w =
  fold_left (Nested.call_in_place (Nested.invoke body fuel) h) (body h)
    (Some (w, [])).
Proof. reflexivity. Qed.

Lemma call_in_place_none (fuel : nat) (h : handler) (cs : list call) :
  fold_left (Nested.call_in_place (Nested.invoke body fuel) h) cs None = None.
Proof. induction cs as [|c cs IH]; simpl; [reflexivity | exact IH]. Qed.

(** What a handler run in place leaves behind is the run of the calls that
    were made, and each of them is made by a handler that had been invoked. *)
Lemma invoke_run (fuel : nat) :
  forall (h : handler) (w w' : world) (made : list (handler * call)),
    was_invoked h w = true ->
    Nested.invoke body fuel h w = Some (w', made) ->
    run made w = w' /\ callers_invoked made w = true.
Proof.
  induction fuel as [|fuel IHf]; intros h w w' made Hh Hinv; [discriminate|].
  rewrite invoke_unfold in Hinv.
  assert (G : forall cs w1 made1,
             run made1 w = w1 -> callers_invoked made1 w = true ->
             fold_left (Nested.call_in_place (Nested.invoke body fuel) h) cs (Some (w1, made1)) =
               Some (w', made) ->
             run made w = w' /\ callers_invoked made w = true).
  { induction cs as [|c cs IHc]; intros w1 made1 Hr Hv Hf; simpl in Hf.
    - inversion Hf; subst. split; [reflexivity | exact Hv].
    - assert (Hh1 : was_invoked h w1 = true)
        by (rewrite <- Hr; apply run_was_invoked; exact Hh).
      assert (Plain : fold_left (Nested.call_in_place (Nested.invoke body fuel) h) cs
                        (Some (step c w1, made1 ++ [(h, c)])) = Some (w', made) ->
                      run made w = w' /\ callers_invoked made w = true).
      { apply IHc.
        - rewrite run_app, Hr. reflexivity.
        - rewrite callers_invoked_app, Hv, Hr. simpl. rewrite Hh1. reflexivity. }
      destruct c; try (apply Plain; exact Hf).
      destruct (handlers_ (this w1)) as [|next rest] eqn:Q; [apply Plain; exact Hf|].
      destruct (Nested.invoke body fuel next (step CallContinue w1))
        as [[w2 inner]|] eqn:E; [|rewrite call_in_place_none in Hf; discriminate].
      assert (Hn : was_invoked next (step CallContinue w1) = true).
      { apply was_invoked_In. destruct (step_queue w1 CallContinue) as [_ Hi].
        rewrite Hi, Q. apply in_or_app. right. left. reflexivity. }
      destruct (IHf next _ _ _ Hn E) as [Hr2 Hv2].
      apply (IHc w2 (made1 ++ (h, CallContinue) :: inner)); [| |exact Hf].
      + rewrite run_app, Hr. simpl. exact Hr2.
      + rewrite callers_invoked_app, Hv, Hr. simpl. rewrite Hh1, Hv2. reflexivity. }
  apply (G (body h) w []); [reflexivity | reflexivity | exact Hinv].
Qed.

(** With fuel above the length of the queue the handler returns, and the
    queue has not grown. *)
Lemma invoke_total (fuel : nat) :
  forall (h : handler) (w : world),
    length (handlers_ (this w)) < fuel ->
    exists w' made,
      Nested.invoke body fuel h w = Some (w', made) /\
      length (handlers_ (this w')) <= length (handlers_ (this w)).
Proof.
  induction fuel as [|fuel IHf]; intros h w Hlt; [lia|].
  rewrite invoke_unfold.
  assert (G : forall cs w1 made1,
             length (handlers_ (this w1)) <= length (handlers_ (this w)) ->
             exists w' made,
               fold_left (Nested.call_in_place (Nested.invoke body fuel) h) cs (Some (w1, made1)) =
                 Some (w', made) /\
               length (handlers_ (this w')) <= length (handlers_ (this w))).
  { induction cs as [|c cs IHc]; intros w1 made1 Hle; simpl.
    - exists w1, made1. split; [reflexivity | exact Hle].
    - assert (Plain : forall c', handlers_ (this (step c' w1)) = handlers_ (this w1) ->
                exists w' made,
                  fold_left (Nested.call_in_place (Nested.invoke body fuel) h) cs
                    (Some (step c' w1, made1 ++ [(h, c')])) = Some (w', made) /\
                  length (handlers_ (this w')) <= length (handlers_ (this w))).
      { intros c' E. apply IHc. rewrite E. exact Hle. }
      destruct c;
        try (match goal with
             | |- context [Some (step ?c' w1, _)] =>
                 apply (Plain c'); exact (proj1 (step_queue w1 c'))
             end).
      destruct (handlers_ (this w1)) as [|next rest] eqn:Q.
      + apply (Plain CallContinue).
        rewrite (proj1 (step_queue w1 CallContinue)), Q. reflexivity.
      + assert (Hq : handlers_ (this (step CallContinue w1)) = rest)
          by (rewrite (proj1 (step_queue w1 CallContinue)), Q; reflexivity).
        destruct (IHf next (step CallContinue w1)) as [w2 [inner [E Hle2]]].
        { rewrite Hq. simpl in Hle. lia. }
        rewrite E. apply IHc. rewrite Hq in Hle2. simpl in Hle. lia. }
  apply G. lia.
Qed.

(** The constructor with the first handler run in place: it returns as soon
    as the fuel covers the registration list, and the event it leaves is the
    run of the calls that were made. *)
Lemma construct_run (fuel : nat) (s : nat) (p : Params) (hs : list handler) :
  length hs <= fuel ->
  exists w made,
    Nested.construct body fuel s p hs = Some (w, made) /\
    run made (new s p hs) = w /\
    callers_invoked made (new s p hs) = true.
Proof.
  intros Hlen. destruct hs as [|h rest].
  - exists (new s p []), []. repeat split.
  - unfold Nested.construct.
    destruct (invoke_total fuel h (new s p (h :: rest))) as [w [made [E _]]].
    { rewrite new_first. simpl in *. lia. }
    exists w, made. split; [exact E|].
    apply (invoke_run fuel h); [|exact E].
    apply was_invoked_In. rewrite new_first. left. reflexivity.
Qed.

End NestedRuns.

Section Shaping.

Lemma shape_headers_spec (headers : header_map) :
  forall (acc : list header_entry) (seen : bool),
    shape_headers headers acc seen =
    (acc ++ map entry_of headers,
     seen || existsb names_content_length headers).
Proof.
  induction headers as [|[k v] rest IH]; intros acc seen; simpl.
  - rewrite app_nil_r, orb_false_r. reflexivity.
  - rewrite IH, <- app_assoc. simpl. unfold names_content_length at 2. simpl.
    destruct (String.eqb (Js.toLowerCase k) "content-length"); simpl.
    + rewrite orb_true_r. reflexivity.
    + reflexivity.
Qed.

(** The parameter object of [deferToBrowser], field by field. *)
Lemma override_params_shape (overrides : option Overrides) (id : string) :
  Protocol.set (override_params overrides) "requestId" (VString id) =
  match and_field overrides overrides_url Js.truthy_string with
  | Some u => [("url", VString u)]
  | None => []
  end ++
  match and_field overrides overrides_method Js.truthy_string with
  | Some m => [("method", VString m)]
  | None => []
  end ++
  match and_field overrides overrides_headers Js.truthy_object with
  | Some h => [("headers", VHeaderMap h)]
  | None => []
  end ++
  [("requestId", VString id)].
Proof.
  destruct overrides as [[u m hd]|]; [|reflexivity].
  destruct u as [[|a u]|]; destruct m as [[|b m]|]; destruct hd as [hd|];
    reflexivity.
Qed.

Lemma step_deferToBrowser_pending (w : world) (overrides : option Overrides) :
  done_ (this w) = false ->
  step (CallDeferToBrowser overrides) w =
  {| this := resolved (this w);
     trace := trace w ++
              [Sent (session_ (this w))
                 (continueRequest (this w) (override_params overrides))] |}.
Proof.
  intros Hd. rewrite step_deferToBrowser. apply resolve_pending. exact Hd.
Qed.

End Shaping.

(* ===================================================================== *)
(** ** Theorems *)
(* ===================================================================== *)

(** C1. [abort], [fail] and [fulfill] do not consult [done_]: on an event
    that [abort()] has already resolved, a second [abort()], a [fail()] and a
    [fulfill(options)] each send one more command and raise no conflict;
    only [deferToBrowser] is refused, with the error of [resolve_], and
    sends nothing. *)
Theorem decision_after_resolution (s : nat) (p : Params) (h : handler)
    (options : FulfillOptions) (overrides : option Overrides) :
  (sent (run [(h, CallAbort); (h, CallAbort)] (new s p [h])) =
     [failRequest (fresh s p []); failRequest (fresh s p [])] /\
   conflicts (run [(h, CallAbort); (h, CallAbort)] (new s p [h])) = 0)
  /\
  (sent (run [(h, CallAbort); (h, CallFail)] (new s p [h])) =
     [failRequest (fresh s p []); failRequest (fresh s p [])] /\
   conflicts (run [(h, CallAbort); (h, CallFail)] (new s p [h])) = 0)
  /\
  (sent (run [(h, CallAbort); (h, CallFulfill options)] (new s p [h])) =
     [failRequest (fresh s p []); fulfillRequest (fresh s p []) options] /\
   conflicts (run [(h, CallAbort); (h, CallFulfill options)] (new s p [h])) = 0)
  /\
  (sent (run [(h, CallAbort); (h, CallDeferToBrowser overrides)] (new s p [h])) =
     [failRequest (fresh s p [])] /\
   trace (run [(h, CallAbort); (h, CallDeferToBrowser overrides)] (new s p [h])) =
     [Invoked h; Sent s (failRequest (fresh s p []));
      Threw "Already resolved given request"]).
Proof.
  unfold run. rewrite new_first.
  repeat split.
  - rewrite step_fulfill, step_abort. reflexivity.
  - rewrite step_fulfill, step_abort. reflexivity.
Qed.

(** C2, as amended. Take an event built on a registration list without
    repetition, driven by calls that come only from handlers already
    invoked, in which no handler calls [continue()] more than once. Then the
    k-th registered handler is invoked if and only if every handler
    registered before it called [continue()]; the handlers invoked are a
    front segment of the registration list, in registration order; and a
    handler that does not call [continue()] halts the chain: no handler
    registered after it is invoked. *)
Theorem handler_chain_order (s : nat) (p : Params) (hs : list handler)
    (calls : list (handler * call)) (k : nat) (hk : handler) :
  NoDup hs ->
  callers_invoked calls (new s p hs) = true ->
  NoDup (continue_callers calls) ->
  nth_error hs k = Some hk ->
  (In hk (invoked (run calls (new s p hs))) <->
   forall j hj, j < k -> nth_error hs j = Some hj -> calls_continue hj calls)
  /\ invoked (run calls (new s p hs)) =
     firstn (length (invoked (run calls (new s p hs)))) hs
  /\ (forall j hj, j < k -> nth_error hs j = Some hj ->
                   ~ calls_continue hj calls ->
                   ~ In hk (invoked (run calls (new s p hs)))).
Proof.
  intros Hnd Hval Honce Hk.
  pose proof (chain_inv_run hs calls [] (new s p hs)
                (chain_inv_new hs Hnd s p) Hval Honce) as Inv.
  simpl in Inv. destruct Inv as [Hs Hst Hc Hcal].
  set (w := run calls (new s p hs)) in *.
  assert (Hfwd : In hk (invoked w) -> k < length (invoked w)).
  { intros Hin. destruct (invoked_position hs w hk Hs Hin) as [i [Hlt Hi]].
    rewrite (registered_once hs Hnd k i hk Hk Hi). exact Hlt. }
  assert (Hiff : In hk (invoked w) <->
            forall j hj, j < k -> nth_error hs j = Some hj ->
                         calls_continue hj calls).
  { split.
    - intros Hin j hj Hj Hn. apply (Hc j hj); [|exact Hn].
      apply Hfwd in Hin. lia.
    - intros Hall.
      apply (position_invoked hs w k hk Hs Hk).
      destruct (Nat.lt_ge_cases k (length (invoked w))) as [Hlt|Hge]; [exact Hlt|].
      exfalso.
      assert (Hne : hs <> []) by (intros E; rewrite E in Hk; destruct k; discriminate).
      specialize (Hst Hne).
      assert (Hpos : 0 < length (invoked w))
        by (destruct (invoked w); [congruence | simpl; lia]).
      assert (Hk_lt : k < length hs) by (apply nth_error_Some; congruence).
      destruct (nth_error hs (length (invoked w) - 1)) as [hj|] eqn:Hj;
        [|apply nth_error_None in Hj; lia].
      assert (Hcall : calls_continue hj calls)
        by (apply (Hall (length (invoked w) - 1) hj); [lia | exact Hj]).
      apply continue_callers_In in Hcall.
      destruct (Hcal hj Hcall) as [j' [Hj' Hwhere]].
      assert (j' = length (invoked w) - 1)
        by (apply (registered_once hs Hnd _ _ hj Hj' Hj)).
      destruct Hwhere as [Hlt|[_ Hempty]]; [lia|].
      rewrite Hempty, app_nil_r in Hs.
      rewrite <- Hs in Hk_lt. lia. }
  split; [exact Hiff|]. split.
  - rewrite <- Hs at 1. rewrite firstn_app, Nat.sub_diag, firstn_all. simpl.
    rewrite app_nil_r. reflexivity.
  - intros j hj Hj Hn Hno Hin. apply Hno. apply (proj1 Hiff Hin j hj Hj Hn).
Qed.

(** The chain of three handlers in which the first two call [continue()]
    and the third aborts: the third handler is invoked. *)
Lemma handler_chain_order_witness :
  In 2 (invoked (run [(0, CallContinue); (1, CallContinue); (2, CallAbort)]
                   (new Sample.session Sample.params Sample.three))).
Proof.
  apply (proj1 (handler_chain_order Sample.session Sample.params Sample.three
           [(0, CallContinue); (1, CallContinue); (2, CallAbort)] 2 2
           ltac:(unfold Sample.three; repeat constructor; simpl; intuition lia)
           ltac:(reflexivity)
           ltac:(simpl; repeat constructor; simpl; intuition lia)
           ltac:(reflexivity))).
  intros j hj Hj Hn.
  destruct j as [|[|j]]; simpl in Hn; inversion Hn; subst; unfold calls_continue; simpl.
  - left; reflexivity.
  - right; left; reflexivity.
  - lia.
Defined.

(** C2 as stated fails: when the first handler calls [continue()] twice, the
    third handler is invoked although the second never called
    [continue()]. *)
Lemma handler_chain_order_counterexample :
  NoDup Sample.three /\
  callers_invoked [(0, CallContinue); (0, CallContinue)]
    (new Sample.session Sample.params Sample.three) = true /\
  nth_error Sample.three 2 = Some 2 /\
  ~ (In 2 (invoked (run [(0, CallContinue); (0, CallContinue)]
                      (new Sample.session Sample.params Sample.three))) <->
     forall j hj, j < 2 -> nth_error Sample.three j = Some hj ->
                  calls_continue hj [(0, CallContinue); (0, CallContinue)]).
Proof.
  split; [unfold Sample.three; repeat constructor; simpl; intuition lia|].
  split; [reflexivity|]. split; [reflexivity|].
  intros [H _].
  assert (Hin : In 2 (invoked (run [(0, CallContinue); (0, CallContinue)]
                      (new Sample.session Sample.params Sample.three))))
    by (vm_compute; tauto).
  specialize (H Hin 1 1 ltac:(lia) eq_refl).
  unfold calls_continue in H. simpl in H.
  destruct H as [H|[H|[]]]; inversion H.
Qed.

(** C3. An event built with an empty handler list, and an event each of
    whose handlers calls [continue()] in turn, end the same way: every
    handler is invoked in registration order, then exactly one command is
    sent, [Fetch.continueRequest], whose parameter object has the single
    property [requestId]. *)
Theorem default_decision (s : nat) (p : Params) (hs : list handler) :
  trace (run (map (fun h => (h, CallContinue)) hs) (new s p hs)) =
    map Invoked hs ++
    [Sent s (Command "Fetch.continueRequest"
               [("requestId", VString (requestId p))])]
  /\ sent (run (map (fun h => (h, CallContinue)) hs) (new s p hs)) =
     [Command "Fetch.continueRequest" [("requestId", VString (requestId p))]]
  /\ new s p [] =
     {| this := resolved (fresh s p []);
        trace := [Sent s (Command "Fetch.continueRequest"
                            [("requestId", VString (requestId p))])] |}.
Proof.
  assert (T : trace (run (map (fun h => (h, CallContinue)) hs) (new s p hs)) =
              map Invoked hs ++
              [Sent s (Command "Fetch.continueRequest"
                         [("requestId", VString (requestId p))])]).
  { destruct hs as [|h rest].
    - reflexivity.
    - rewrite new_first.
      rewrite (run_continue_through rest (h :: rest)
                 {| this := fresh s p rest; trace := [Invoked h] |});
        reflexivity. }
  split; [exact T|]. split; [|reflexivity].
  unfold sent. rewrite T, sent_of_app, sent_of_invoked. reflexivity.
Qed.

(** C4, as amended. On any event, [fulfill] with status 404, an empty header
    mapping and a Buffer holding the bytes of [hello] sends one
    [Fetch.fulfillRequest] with [responseCode] 404, the single header
    [content-length] of value ["5"], and the body ["aGVsbG8="], which is the
    base64 text of [hello] and decodes back to it. *)
Theorem fulfill_404_buffer (w : world) :
  trace (step (CallFulfill {| status := Some 404%Z;
                              headers_ := Some [];
                              body := Js.BodyBuffer (Js.Buffer_from "hello") |})
           w) =
    trace w ++
    [Sent (session_ (this w))
       (Command "Fetch.fulfillRequest"
          [("requestId", VString (requestId (params_ (this w))));
           ("responseCode", VNumber 404);
           ("responseHeaders", VHeaderList [HeaderEntry "content-length" "5"]);
           ("body", VString "aGVsbG8=")])]
  /\ Js.String_of_nat (Js.byteLength (Js.BodyBuffer (Js.Buffer_from "hello"))) = "5"
  /\ Js.base64_encode (Js.Buffer_from "hello") = "aGVsbG8="
  /\ Js.base64_decode "aGVsbG8=" = Some (Js.Buffer_from "hello").
Proof.
  rewrite step_fulfill. repeat split.
Qed.

(** C4 as stated fails: with the string ["hello"] as body,
    [body.toString('base64')] is [String.prototype.toString], and the body
    goes out as the text [hello] itself, which is not base64 of [hello] and
    does not decode to it. *)
Lemma fulfill_404_string_counterexample :
  sent (step (CallFulfill {| status := Some 404%Z;
                             headers_ := Some [];
                             body := Js.BodyString "hello" |})
          (new Sample.session Sample.params [0])) =
    [Command "Fetch.fulfillRequest"
       [("requestId", VString "interception-1");
        ("responseCode", VNumber 404);
        ("responseHeaders", VHeaderList [HeaderEntry "content-length" "5"]);
        ("body", VString "hello")]]
  /\ "hello" <> Js.base64_encode (Js.Buffer_from "hello")
  /\ Js.base64_decode "hello" <> Some (Js.Buffer_from "hello").
Proof.
  split; [reflexivity|]. split; vm_compute; discriminate.
Qed.



(** C6, as amended. On a pending event, [deferToBrowser(overrides)] sends
    one [Fetch.continueRequest] whose parameter object holds [requestId],
    the event's request id, and beside it exactly those of [url], [method]
    and [headers] that [overrides] holds with a truthy value (a non-empty
    string for [url] and [method], any mapping for [headers]), each with
    the value given. For [{method: "POST"}] the object is exactly [method]
    and [requestId]: [url] and [headers] are absent. *)
Theorem deferToBrowser_command (w : world) (overrides : option Overrides) :
  done_ (this w) = false ->
  (exists params,
     trace (step (CallDeferToBrowser overrides) w) =
       trace w ++
       [Sent (session_ (this w)) (Command "Fetch.continueRequest" params)]
     /\ Protocol.get params "requestId" =
        Some (VString (requestId (params_ (this w))))
     /\ (forall key, In key (keys params) ->
           key = "requestId" \/ key = "url" \/ key = "method" \/ key = "headers")
     /\ (forall v, Protocol.get params "url" = Some v <->
           exists o u, overrides = Some o /\ overrides_url o = Some u /\
                       u <> EmptyString /\ v = VString u)
     /\ (forall v, Protocol.get params "method" = Some v <->
           exists o m, overrides = Some o /\ overrides_method o = Some m /\
                       m <> EmptyString /\ v = VString m)
     /\ (forall v, Protocol.get params "headers" = Some v <->
           exists o h, overrides = Some o /\ overrides_headers o = Some h /\
                       v = VHeaderMap h))
  /\
  trace (step (CallDeferToBrowser
                 (Some {| overrides_url := None;
                          overrides_method := Some "POST";
                          overrides_headers := None |})) w) =
    trace w ++
    [Sent (session_ (this w))
       (Command "Fetch.continueRequest"
          [("method", VString "POST");
           ("requestId", VString (requestId (params_ (this w))))])].
Proof.
  intros Hd. split.
  - exists (Protocol.set (override_params overrides) "requestId"
              (VString (requestId (params_ (this w))))).
    rewrite (step_deferToBrowser_pending w overrides Hd).
    split; [reflexivity|].
    rewrite override_params_shape.
    assert (Str : forall (f : Overrides -> option string) (got : option jsvalue),
              got = match overrides with
                    | Some o => match f o with
                                | Some (String a u) => Some (VString (String a u))
                                | _ => None
                                end
                    | None => None
                    end ->
              forall v, got = Some v <->
                exists o u, overrides = Some o /\ f o = Some u /\
                            u <> EmptyString /\ v = VString u).
    { intros f got -> v. split.
      - destruct overrides as [o|]; [|discriminate].
        destruct (f o) as [[|a u]|] eqn:E; try discriminate.
        intros H. inversion H; subst. exists o, (String a u).
        repeat split; [exact E | discriminate].
      - intros [o [u [-> [E [Hne ->]]]]]. rewrite E.
        destruct u as [|a u]; [exfalso; apply Hne; reflexivity | reflexivity]. }
    assert (Hdr : forall got : option jsvalue,
              got = match overrides with
                    | Some o => option_map VHeaderMap (overrides_headers o)
                    | None => None
                    end ->
              forall v, got = Some v <->
                exists o h, overrides = Some o /\ overrides_headers o = Some h /\
                            v = VHeaderMap h).
    { intros got -> v. split.
      - destruct overrides as [o|]; [|discriminate].
        destruct (overrides_headers o) as [h|] eqn:E; [|discriminate].
        intros H. inversion H; subst. exists o, h. repeat split. exact E.
      - intros [o [h [-> [E ->]]]]. rewrite E. reflexivity. }
    split; [|split; [|split; [|split]]].
    + destruct overrides as [[u m hd]|];
        [destruct u as [[|a u]|]; destruct m as [[|b m]|]; destruct hd as [hd|]|];
        reflexivity.
    + intros key.
      destruct overrides as [[u m hd]|];
        [destruct u as [[|a u]|]; destruct m as [[|b m]|]; destruct hd as [hd|]|];
        cbn; intros Hk;
        repeat (destruct Hk as [Hk|Hk]; [subst key; tauto|]); destruct Hk.
    + apply (Str overrides_url).
      destruct overrides as [[u m hd]|];
        [destruct u as [[|a u]|]; destruct m as [[|b m]|]; destruct hd as [hd|]|];
        reflexivity.
    + apply (Str overrides_method).
      destruct overrides as [[u m hd]|];
        [destruct u as [[|a u]|]; destruct m as [[|b m]|]; destruct hd as [hd|]|];
        reflexivity.
    + apply Hdr.
      destruct overrides as [[u m hd]|];
        [destruct u as [[|a u]|]; destruct m as [[|b m]|]; destruct hd as [hd|]|];
        reflexivity.
  - rewrite (step_deferToBrowser_pending w _ Hd). reflexivity.
Qed.

(** The call of the specification on a fresh event. *)
Lemma deferToBrowser_command_witness :
  trace (step (CallDeferToBrowser
                 (Some {| overrides_url := None;
                          overrides_method := Some "POST";
                          overrides_headers := None |}))
           (new Sample.session Sample.params [0])) =
    [Invoked 0;
     Sent Sample.session
       (Command "Fetch.continueRequest"
          [("method", VString "POST");
           ("requestId", VString "interception-1")])].
Proof.
  exact (proj2 (deferToBrowser_command
                  (new Sample.session Sample.params [0]) None eq_refl)).
Defined.

(** C6 as stated fails: in [deferToBrowser({url: ''})] the field [url] is
    present in [overrides], and the parameter object sent has [requestId]
    alone. *)
Lemma deferToBrowser_command_counterexample :
  overrides_url {| overrides_url := Some EmptyString;
                   overrides_method := None;
                   overrides_headers := None |} = Some EmptyString
  /\ sent (step (CallDeferToBrowser
                   (Some {| overrides_url := Some EmptyString;
                            overrides_method := None;
                            overrides_headers := None |}))
             (new Sample.session Sample.params [0])) =
     [Command "Fetch.continueRequest"
        [("requestId", VString "interception-1")]]
  /\ Protocol.get [("requestId", VString "interception-1")] "url" = None.
Proof.
  repeat split.
Qed.

(** C7. [abort()] and [fail()] are the same operation: on every event they
    return the same promise and leave the same object and the same trace,
    whose new entry is the command [Fetch.failRequest] with the event's
    request id and the error reason [Failed]. *)
Theorem abort_fail_same (w : world) :
  abort w = fail w
  /\ step CallAbort w = step CallFail w
  /\ trace (step CallAbort w) =
     trace w ++
     [Sent (session_ (this w))
        (Command "Fetch.failRequest"
           [("requestId", VString (requestId (params_ (this w))));
            ("errorReason", VString "Failed")])].
Proof.
  repeat split.
Qed.

(** C8. The first of three handlers calls [continue()] twice, the other two
    call [abort()] when invoked. The calls made are the four below: the
    second [continue()] hands the resolved event to the third handler, two
    commands are sent for the one request and no conflict is raised. No
    handler is invoked twice. *)
Theorem continue_twice_two_commands (s : nat) (p : Params) :
  option_map snd (Nested.construct Sample.continue_twice 3 s p Sample.three) =
    Some [(0, CallContinue); (1, CallAbort); (0, CallContinue); (2, CallAbort)]
  /\ invoked (run [(0, CallContinue); (1, CallAbort);
                   (0, CallContinue); (2, CallAbort)] (new s p Sample.three)) =
     [0; 1; 2]
  /\ sent (run [(0, CallContinue); (1, CallAbort);
                (0, CallContinue); (2, CallAbort)] (new s p Sample.three)) =
     [Command "Fetch.failRequest"
        [("requestId", VString (requestId p)); ("errorReason", VString "Failed")];
      Command "Fetch.failRequest"
        [("requestId", VString (requestId p)); ("errorReason", VString "Failed")]]
  /\ conflicts (run [(0, CallContinue); (1, CallAbort);
                     (0, CallContinue); (2, CallAbort)] (new s p Sample.three)) = 0.
Proof.
  repeat split.
Qed.

(** C9. After any calls, the event holds the [params] and the session it was
    built with; the accessors leave the event and the trace as they are and
    return the url, method, headers and resource type of the notification;
    [headers()] returns the empty mapping when the notification has none. *)
Theorem accessors_pure (s : nat) (p : Params) (hs : list handler)
    (calls : list (handler * call)) :
  params_ (this (run calls (new s p hs))) = p
  /\ session_ (this (run calls (new s p hs))) = s
  /\ url (run calls (new s p hs)) =
     (request_url (request p), run calls (new s p hs))
  /\ method (run calls (new s p hs)) =
     (request_method (request p), run calls (new s p hs))
  /\ resourceType (run calls (new s p hs)) =
     (resourceType_ p, run calls (new s p hs))
  /\ headers (run calls (new s p hs)) =
     (match request_headers (request p) with
      | Some h => h
      | None => []
      end, run calls (new s p hs))
  /\ fst (headers
            (run calls
               (new s {| requestId := requestId p;
                         request := {| request_url := request_url (request p);
                                       request_method := request_method (request p);
                                       request_headers := None |};
                         resourceType_ := resourceType_ p |} hs))) = [].
Proof.
  assert (F : forall q, params_ (this (run calls (new s q hs))) = q /\
                        session_ (this (run calls (new s q hs))) = s).
  { intros q. destruct (run_frame calls (new s q hs)) as [Hp Hs].
    rewrite Hp, Hs. destruct hs as [|h rest]; split; reflexivity. }
  destruct (F p) as [Hp Hs].
  split; [exact Hp|]. split; [exact Hs|].
  unfold url, method, resourceType, headers, read.
  rewrite Hp.
  rewrite (proj1 (F {| requestId := requestId p;
                       request := {| request_url := request_url (request p);
                                     request_method := request_method (request p);
                                     request_headers := None |};
                       resourceType_ := resourceType_ p |})).
  repeat split.
Qed.

(** C10. [deferToBrowser] copies a field when its value is truthy: on a
    pending event the parameter object has [url] (and [method]) exactly when
    [overrides] is given and the field is a non-empty string, and [headers]
    exactly when [overrides] is given and carries a header mapping. An empty
    [url] or [method] is left out although it is present, and a call without
    argument sends the request id alone. *)
Theorem deferToBrowser_truthiness (w : world) (overrides : option Overrides) :
  done_ (this w) = false ->
  (exists params,
     trace (step (CallDeferToBrowser overrides) w) =
       trace w ++
       [Sent (session_ (this w)) (Command "Fetch.continueRequest" params)]
     /\ Protocol.get params "url" =
        match overrides with
        | Some o => if Js.truthy_string (overrides_url o)
                    then option_map VString (overrides_url o) else None
        | None => None
        end
     /\ Protocol.get params "method" =
        match overrides with
        | Some o => if Js.truthy_string (overrides_method o)
                    then option_map VString (overrides_method o) else None
        | None => None
        end
     /\ Protocol.get params "headers" =
        match overrides with
        | Some o => if Js.truthy_object (overrides_headers o)
                    then option_map VHeaderMap (overrides_headers o) else None
        | None => None
        end)
  /\
  (forall m h,
     trace (step (CallDeferToBrowser
                    (Some {| overrides_url := Some EmptyString;
                             overrides_method := m;
                             overrides_headers := h |})) w) =
     trace (step (CallDeferToBrowser
                    (Some {| overrides_url := None;
                             overrides_method := m;
                             overrides_headers := h |})) w))
  /\
  (forall u h,
     trace (step (CallDeferToBrowser
                    (Some {| overrides_url := u;
                             overrides_method := Some EmptyString;
                             overrides_headers := h |})) w) =
     trace (step (CallDeferToBrowser
                    (Some {| overrides_url := u;
                             overrides_method := None;
                             overrides_headers := h |})) w))
  /\
  trace (step (CallDeferToBrowser None) w) =
    trace w ++
    [Sent (session_ (this w))
       (Command "Fetch.continueRequest"
          [("requestId", VString (requestId (params_ (this w))))])].
Proof.
  intros Hd. split; [|split; [|split]].
  - exists (Protocol.set (override_params overrides) "requestId"
              (VString (requestId (params_ (this w))))).
    rewrite (step_deferToBrowser_pending w overrides Hd).
    split; [reflexivity|].
    rewrite override_params_shape.
    destruct overrides as [[u m hd]|];
      [destruct u as [[|a u]|]; destruct m as [[|b m]|]; destruct hd as [hd|]|];
      repeat split.
  - intros m h. rewrite !(step_deferToBrowser_pending w _ Hd). reflexivity.
  - intros u h. rewrite !(step_deferToBrowser_pending w _ Hd).
    destruct u as [[|a u]|]; reflexivity.
  - rewrite (step_deferToBrowser_pending w _ Hd). reflexivity.
Qed.

(** An empty [url] beside a method, on a fresh event: only the method and
    the request id go out. *)
Lemma deferToBrowser_truthiness_witness :
  trace (step (CallDeferToBrowser
                 (Some {| overrides_url := Some EmptyString;
                          overrides_method := Some "POST";
                          overrides_headers := None |}))
           (new Sample.session Sample.params [0])) =
  trace (step (CallDeferToBrowser
                 (Some {| overrides_url := None;
                          overrides_method := Some "POST";
                          overrides_headers := None |}))
           (new Sample.session Sample.params [0])).
Proof.
  exact (proj1 (proj2 (deferToBrowser_truthiness
                         (new Sample.session Sample.params [0]) None eq_refl))
           (Some "POST") None).
Defined.

(* ===================================================================== *)
(** ** Further properties: lemmas *)
(* ===================================================================== *)

Section OneCall.

Variable w : world.

(** Every call adds to the trace exactly what [effects] says. *)
Lemma step_trace (c : call) : trace (step c w) = trace w ++ effects c w.
Proof.
  destruct c; simpl effects.
  - rewrite step_abort. reflexivity.
  - rewrite step_fail. reflexivity.
  - destruct (handlers_ (this w)) as [|h rest] eqn:Q.
    + rewrite (step_continue_last w Q), resolve_cases.
      destruct (done_ (this w)); reflexivity.
    + rewrite (step_continue_next w h rest Q). reflexivity.
  - rewrite step_deferToBrowser, resolve_cases.
    destruct (done_ (this w)); reflexivity.
  - rewrite step_fulfill. reflexivity.
Qed.

(** [done_] becomes true exactly when the call sends. *)
Lemma step_done (c : call) :
  done_ (this (step c w)) =
  match sent_of (effects c w) with
  | [] => done_ (this w)
  | _ :: _ => true
  end.
Proof.
  destruct c; simpl effects.
  - rewrite step_abort. reflexivity.
  - rewrite step_fail. reflexivity.
  - destruct (handlers_ (this w)) as [|h rest] eqn:Q.
    + rewrite (step_continue_last w Q), resolve_cases.
      destruct (done_ (this w)) eqn:D; simpl; [exact D | reflexivity].
    + rewrite (step_continue_next w h rest Q). reflexivity.
  - rewrite step_deferToBrowser, resolve_cases.
    destruct (done_ (this w)) eqn:D; simpl; [exact D | reflexivity].
  - rewrite step_fulfill. reflexivity.
Qed.

Lemma step_sent (c : call) : sent (step c w) = sent w ++ sent_of (effects c w).
Proof. unfold sent. rewrite step_trace, sent_of_app. reflexivity. Qed.

(** An unguarded call sends one command; a guarded one sends at most one,
    and none on a resolved event. *)
Lemma effects_count (c : call) :
  length (sent_of (effects c w)) =
  if unguarded c then 1
  else if done_ (this w) then 0
       else match c, handlers_ (this w) with
            | CallContinue, _ :: _ => 0
            | _, _ => 1
            end.
Proof.
  destruct c; simpl; try reflexivity.
  - destruct (handlers_ (this w)); destruct (done_ (this w)); reflexivity.
  - destruct (done_ (this w)); reflexivity.
Qed.

End OneCall.

Section Objects.

Lemma get_set_same (o : object) (k : string) (v : jsvalue) :
  Protocol.get (Protocol.set o k v) k = Some v.
Proof.
  induction o as [|[k' v'] o IH]; simpl.
  - rewrite String.eqb_refl. reflexivity.
  - destruct (String.eqb k' k) eqn:E; simpl; rewrite E; [reflexivity | exact IH].
Qed.

End Objects.

Section WholeRuns.

(** Commands sent over a run, counted: every [abort], [fail] and [fulfill]
    adds one, and [continue]/[deferToBrowser] add at most one in all, and
    only to a pending event. *)
Lemma run_sent_bounds (calls : list (handler * call)) :
  forall w : world,
    count_unguarded calls + length (sent w) <= length (sent (run calls w)) /\
    length (sent (run calls w)) <=
      count_unguarded calls + length (sent w) +
      (if done_ (this w) then 0 else 1).
Proof.
  induction calls as [|[h c] rest IH]; intros w; simpl.
  - lia.
  - destruct (IH (step c w)) as [Lo Hi].
    rewrite step_sent, length_app in Lo, Hi.
    rewrite step_done in Hi.
    pose proof (effects_count w c) as E.
    destruct (unguarded c).
    + destruct (sent_of (effects c w)) as [|x l]; simpl in *; [discriminate|].
      split; lia.
    + destruct (done_ (this w)).
      * destruct (sent_of (effects c w)) as [|x l]; simpl in *; [|discriminate].
        split; lia.
      * destruct (sent_of (effects c w)) as [|x l]; simpl in *.
        -- split; lia.
        -- assert (length l = 0)
             by (destruct c; try discriminate;
                 destruct (handlers_ (this w)); simpl in E; lia).
           split; lia.
Qed.

(** [done_] is set exactly when something has been sent. *)
Lemma run_done_sent (calls : list (handler * call)) :
  forall w : world,
    (done_ (this w) = true <-> sent w <> []) ->
    (done_ (this (run calls w)) = true <-> sent (run calls w) <> []).
Proof.
  induction calls as [|[h c] rest IH]; intros w Hw; simpl; [exact Hw|].
  apply IH. rewrite step_done, step_sent.
  destruct (sent_of (effects c w)) as [|x l].
  - rewrite app_nil_r. exact Hw.
  - split; [|reflexivity]. intros _ E. apply app_eq_nil in E.
    destruct E; discriminate.
Qed.

Lemma new_done_sent (s : nat) (p : Params) (hs : list handler) :
  done_ (this (new s p hs)) = true <-> sent (new s p hs) <> [].
Proof.
  destruct hs as [|h rest].
  - rewrite new_empty. split; [discriminate | reflexivity].
  - rewrite new_first. split; [discriminate | intros H; exfalso; apply H; reflexivity].
Qed.

Lemma run_resolved_stays (calls : list (handler * call)) :
  forall w : world,
    done_ (this w) = true -> done_ (this (run calls w)) = true.
Proof.
  induction calls as [|[h c] rest IH]; intros w Hd; simpl; [exact Hd|].
  apply IH, resolved_stays, Hd.
Qed.

(** One call, one effect. *)
Lemma effects_one (c : call) (w : world) : length (effects c w) = 1.
Proof.
  destruct c; simpl; try reflexivity.
  - destruct (handlers_ (this w)); [destruct (done_ (this w))|]; reflexivity.
  - destruct (done_ (this w)); reflexivity.
Qed.

Lemma run_trace_length (calls : list (handler * call)) :
  forall w : world,
    length (trace (run calls w)) = length (trace w) + length calls.
Proof.
  induction calls as [|[h c] rest IH]; intros w; simpl; [lia|].
  rewrite IH, step_trace, length_app, effects_one. lia.
Qed.

(** What a command sent by a call looks like. *)
Lemma effects_stamped (c : call) (w : world) (s' : nat) (cmd : command) :
  In (Sent s' cmd) (effects c w) ->
  s' = session_ (this w) /\
  Protocol.get (parameters cmd) "requestId" =
    Some (VString (requestId (params_ (this w)))) /\
  (method_name cmd = "Fetch.failRequest" \/
   method_name cmd = "Fetch.continueRequest" \/
   method_name cmd = "Fetch.fulfillRequest").
Proof.
  destruct c; simpl.
  - intros [H|[]]. inversion H; subst. simpl. auto.
  - intros [H|[]]. inversion H; subst. simpl. auto.
  - destruct (handlers_ (this w)); [destruct (done_ (this w))|];
      intros [H|[]]; inversion H; subst. simpl. auto.
  - destruct (done_ (this w)); intros [H|[]]; inversion H; subst.
    simpl. rewrite get_set_same. auto.
  - intros [H|[]]. inversion H; subst. simpl. auto.
Qed.

Lemma run_stamped (calls : list (handler * call)) (s : nat) (p : Params) :
  forall w : world,
    session_ (this w) = s -> params_ (this w) = p ->
    forall s' cmd,
      In (Sent s' cmd) (trace (run calls w)) ->
      In (Sent s' cmd) (trace w) \/
      (s' = s /\
       Protocol.get (parameters cmd) "requestId" = Some (VString (requestId p)) /\
       (method_name cmd = "Fetch.failRequest" \/
        method_name cmd = "Fetch.continueRequest" \/
        method_name cmd = "Fetch.fulfillRequest")).
Proof.
  induction calls as [|[h c] rest IH]; intros w Hs Hp s' cmd Hin; simpl in Hin.
  - left. exact Hin.
  - destruct (step_frame w c) as [Fp Fs].
    destruct (IH (step c w) ltac:(congruence) ltac:(congruence) s' cmd Hin)
      as [Hold|Hnew]; [|right; exact Hnew].
    rewrite step_trace in Hold. apply in_app_or in Hold.
    destruct Hold as [Hold|Hold]; [left; exact Hold|].
    right. apply effects_stamped in Hold. rewrite Hs, Hp in Hold. exact Hold.
Qed.

(** Splitting a list that ends in one more element. *)
Lemma split_at_last {A : Type} (l pre post : list A) (e x : A) :
  l ++ [e] = pre ++ x :: post ->
  (post = [] /\ pre = l /\ x = e) \/
  (exists post', post = post' ++ [e] /\ l = pre ++ x :: post').
Proof.
  intros H. destruct (exists_last (l:=x :: post) ltac:(discriminate)) as [q [y E]].
  destruct post as [|z post].
  - left. simpl in H. apply app_inj_tail in H. destruct H; auto.
  - right. destruct (exists_last (l:=z :: post) ltac:(discriminate)) as [q' [y' E']].
    rewrite E' in H.
    change (pre ++ x :: q' ++ [y']) with (pre ++ (x :: q') ++ [y']) in H.
    rewrite app_assoc in H. apply app_inj_tail in H. destruct H as [H1 H2].
    subst y'. exists q'. split; [exact E' | exact H1].
Qed.

(** The error is raised only on an event that has sent a command. *)
Lemma run_conflict_after_send (calls : list (handler * call)) :
  forall w : world,
    (done_ (this w) = true -> sent w <> []) ->
    (forall pre m post, trace w = pre ++ Threw m :: post ->
                        sent_of pre <> [] /\ m = conflict_message) ->
    forall pre m post,
      trace (run calls w) = pre ++ Threw m :: post ->
      sent_of pre <> [] /\ m = conflict_message.
Proof.
  induction calls as [|[h c] rest IH]; intros w Hd Hw; simpl; [exact Hw|].
  apply IH.
  - rewrite step_done, step_sent.
    destruct (sent_of (effects c w)) as [|x l].
    + rewrite app_nil_r. exact Hd.
    + intros _ E. apply app_eq_nil in E. destruct E; discriminate.
  - intros pre m post. rewrite step_trace.
    pose proof (effects_one c w) as L1.
    destruct (effects c w) as [|e [|e' l]] eqn:Ef; simpl in L1; try discriminate.
    intros H. apply split_at_last in H.
    destruct H as [[_ [Hpre He]]|[post' [_ Hl]]]; [|exact (Hw pre m post' Hl)].
    subst pre.
    assert (D : done_ (this w) = true /\ m = conflict_message).
    { destruct c; simpl in Ef.
      - inversion Ef; subst; discriminate.
      - inversion Ef; subst; discriminate.
      - destruct (handlers_ (this w)); [destruct (done_ (this w))|];
          inversion Ef; subst; try discriminate.
        inversion H0. auto.
      - destruct (done_ (this w)); inversion Ef; subst; try discriminate.
        inversion H0. auto.
      - inversion Ef; subst; discriminate. }
    destruct D as [D Hm]. split; [exact (Hd D) | exact Hm].
Qed.

End WholeRuns.

Section HeaderList.

Lemma lower_ascii_not_upper (c : ascii) : is_upper (Js.lower_ascii c) = false.
Proof.
  destruct c as [b0 b1 b2 b3 b4 b5 b6 b7].
  destruct b0, b1, b2, b3, b4, b5, b6, b7; reflexivity.
Qed.

Lemma toLowerCase_no_upper (s : string) : no_upper (Js.toLowerCase s) = true.
Proof.
  induction s as [|c s IH]; simpl; [reflexivity|].
  rewrite lower_ascii_not_upper, IH. reflexivity.
Qed.

(** [responseHeaders] in one equation: the supplied headers, lower-cased, in
    order, then the computed entry when there is a truthy body and no
    supplied header is named content-length. *)
Lemma response_headers_shape (options : FulfillOptions) :
  response_headers options =
  map entry_of (supplied options) ++
  (if Js.truthy_body (body options) &&
      negb (existsb names_content_length (supplied options))
   then [HeaderEntry "content-length"
           (Js.String_of_nat (Js.byteLength (body options)))]
   else []).
Proof.
  unfold response_headers, supplied.
  destruct (headers_ options) as [h|].
  - rewrite shape_headers_spec. simpl.
    destruct (Js.truthy_body (body options) &&
              negb (existsb names_content_length h));
      [reflexivity | rewrite app_nil_r; reflexivity].
  - simpl. rewrite andb_true_r.
    destruct (Js.truthy_body (body options)); reflexivity.
Qed.

Lemma no_supplied_content_length (h : header_map) :
  (forall k v, In (k, v) h -> Js.toLowerCase k <> "content-length") ->
  existsb names_content_length h = false.
Proof.
  intros H. destruct (existsb names_content_length h) eqn:E; [|reflexivity].
  apply existsb_exists in E. destruct E as [[k v] [Hin Hk]].
  unfold names_content_length in Hk. simpl in Hk. apply String.eqb_eq in Hk.
  exfalso. exact (H k v Hin Hk).
Qed.

End HeaderList.

Section Base64.

Lemma below_spec (n : nat) (P : N -> bool) :
  below n P = true -> forall v, (v < N.of_nat n)%N -> P v = true.
Proof.
  unfold below. intros H v Hv. rewrite forallb_forall in H.
  specialize (H (N.to_nat v)). rewrite N2Nat.id in H. apply H.
  apply in_seq. lia.
Qed.

(** A sextet is read back from its character, which is never the padding. *)
Lemma sextet_char (v : N) :
  (v < 64)%N ->
  Js.base64_value (Js.base64_char v) = Some v /\
  Ascii.eqb (Js.base64_char v) "=" = false.
Proof.
  intros Hv.
  assert (C : below 64 (fun v =>
            match Js.base64_value (Js.base64_char v) with
            | Some u => N.eqb u v
            | None => false
            end && negb (Ascii.eqb (Js.base64_char v) "=")) = true)
    by (vm_compute; reflexivity).
  pose proof (below_spec 64 _ C v Hv) as H. cbv beta in H.
  apply andb_true_iff in H. destruct H as [H1 H2].
  destruct (Js.base64_value (Js.base64_char v)) as [u|]; [|discriminate].
  apply N.eqb_eq in H1. subst u. split; [reflexivity|].
  apply negb_true_iff. exact H2.
Qed.

Lemma byte_back (n : N) (a : byte) :
  N.land n 255 = Byte.to_N a -> Js.byte_of_N n = a.
Proof. intros H. unfold Js.byte_of_N. rewrite H, Byte.of_to_N. reflexivity. Qed.

Lemma byte_below (a : byte) : (Byte.to_N a < N.of_nat 256)%N.
Proof. pose proof (Byte.to_N_bounded a). lia. Qed.

(** The two-bit and four-bit parts of a byte. *)
Lemma byte_parts (x : N) :
  (x < N.of_nat 256)%N ->
  (N.land x 3 < N.of_nat 4 /\ N.shiftr x 4 < N.of_nat 16 /\
   N.land x 15 < N.of_nat 16 /\ N.shiftr x 6 < N.of_nat 4)%N.
Proof.
  intros Hx.
  assert (C : below 256 (fun x =>
            (N.land x 3 <? 4) && (N.shiftr x 4 <? 16) &&
            (N.land x 15 <? 16) && (N.shiftr x 6 <? 4))%N = true)
    by (vm_compute; reflexivity).
  pose proof (below_spec 256 _ C x Hx) as H. cbv beta in H.
  repeat (apply andb_true_iff in H; destruct H as [H ?]).
  repeat match goal with K : (_ <? _)%N = true |- _ => apply N.ltb_lt in K end.
  simpl. auto.
Qed.

(** The first byte comes back from the first two sextets. *)
Lemma bits_first (x hy : N) :
  (x < N.of_nat 256)%N -> (hy < N.of_nat 16)%N ->
  (N.shiftr x 2 < 64 /\ N.lor (N.shiftl (N.land x 3) 4) hy < 64 /\
   N.land (N.lor (N.shiftl (N.shiftr x 2) 2)
                 (N.shiftr (N.lor (N.shiftl (N.land x 3) 4) hy) 4)) 255 = x)%N.
Proof.
  intros Hx Hy.
  assert (C : below 256 (fun x => below 16 (fun hy =>
            (N.shiftr x 2 <? 64) && (N.lor (N.shiftl (N.land x 3) 4) hy <? 64) &&
            (N.land (N.lor (N.shiftl (N.shiftr x 2) 2)
                (N.shiftr (N.lor (N.shiftl (N.land x 3) 4) hy) 4)) 255 =? x))%N)
            = true) by (vm_compute; reflexivity).
  pose proof (below_spec 16 _ (below_spec 256 _ C x Hx) hy Hy) as H.
  cbv beta in H. apply andb_true_iff in H. destruct H as [H H3].
  apply andb_true_iff in H. destruct H as [H1 H2].
  apply N.ltb_lt in H1, H2. apply N.eqb_eq in H3. auto.
Qed.

(** The second byte comes back from the second and third sextets. *)
Lemma bits_second (lx y hz : N) :
  (lx < N.of_nat 4)%N -> (y < N.of_nat 256)%N -> (hz < N.of_nat 4)%N ->
  (N.lor (N.shiftl (N.land y 15) 2) hz < 64 /\
   N.land (N.lor (N.shiftl (N.lor (N.shiftl lx 4) (N.shiftr y 4)) 4)
                 (N.shiftr (N.lor (N.shiftl (N.land y 15) 2) hz) 2)) 255 = y)%N.
Proof.
  intros Hx Hy Hz.
  assert (C : below 4 (fun lx => below 256 (fun y => below 4 (fun hz =>
            (N.lor (N.shiftl (N.land y 15) 2) hz <? 64) &&
            (N.land (N.lor (N.shiftl (N.lor (N.shiftl lx 4) (N.shiftr y 4)) 4)
                 (N.shiftr (N.lor (N.shiftl (N.land y 15) 2) hz) 2)) 255 =? y))%N))
            = true) by (vm_compute; reflexivity).
  pose proof (below_spec 4 _ (below_spec 256 _ (below_spec 4 _ C lx Hx) y Hy) hz Hz)
    as H.
  cbv beta in H. apply andb_true_iff in H. destruct H as [H1 H2].
  apply N.ltb_lt in H1. apply N.eqb_eq in H2. auto.
Qed.

(** The third byte comes back from the last two sextets. *)
Lemma bits_third (ly z : N) :
  (ly < N.of_nat 16)%N -> (z < N.of_nat 256)%N ->
  (N.land z 63 < 64 /\
   N.land (N.lor (N.shiftl (N.lor (N.shiftl ly 2) (N.shiftr z 6)) 6)
                 (N.land z 63)) 255 = z)%N.
Proof.
  intros Hy Hz.
  assert (C : below 16 (fun ly => below 256 (fun z =>
            (N.land z 63 <? 64) &&
            (N.land (N.lor (N.shiftl (N.lor (N.shiftl ly 2) (N.shiftr z 6)) 6)
                 (N.land z 63)) 255 =? z))%N)
            = true) by (vm_compute; reflexivity).
  pose proof (below_spec 256 _ (below_spec 16 _ C ly Hy) z Hz) as H.
  cbv beta in H. apply andb_true_iff in H. destruct H as [H1 H2].
  apply N.ltb_lt in H1. apply N.eqb_eq in H2. auto.
Qed.

(** The decoder on four characters. *)
Lemma decode_quad (c1 c2 c3 c4 : ascii) (rest : string) :
  Js.base64_decode (String c1 (String c2 (String c3 (String c4 rest)))) =
  match Js.base64_value c1, Js.base64_value c2 with
  | Some v1, Some v2 =>
      let b1 := Js.byte_of_N (N.lor (N.shiftl v1 2) (N.shiftr v2 4)) in
      if Ascii.eqb c3 "=" then
        if Ascii.eqb c4 "=" then
          match rest with EmptyString => Some [b1] | _ => None end
        else None
      else
        match Js.base64_value c3 with
        | Some v3 =>
            let b2 := Js.byte_of_N (N.lor (N.shiftl v2 4) (N.shiftr v3 2)) in
            if Ascii.eqb c4 "=" then
              match rest with EmptyString => Some [b1; b2] | _ => None end
            else
              match Js.base64_value c4, Js.base64_decode rest with
              | Some v4, Some tail =>
                  Some (b1 :: b2 ::
                        Js.byte_of_N (N.lor (N.shiftl v3 6) v4) :: tail)
              | _, _ => None
              end
        | None => None
        end
  | _, _ => None
  end.
Proof. reflexivity. Qed.

(** Decoding what [toString('base64')] wrote gives the bytes back. *)
Lemma base64_round_trip :
  forall bs : Js.Buffer, Js.base64_decode (Js.base64_encode bs) = Some bs.
Proof.
  fix IH 1. intros [|a [|b [|c rest]]].
  - reflexivity.
  - pose proof (byte_below a) as Ha.
    destruct (bits_first (Byte.to_N a) 0 Ha ltac:(reflexivity)) as [L1 [L2 E1]].
    rewrite N.lor_0_r in L2, E1.
    cbn [Js.base64_encode]. cbv zeta.
    change "==" with (String "=" (String "=" EmptyString)).
    rewrite decode_quad.
    rewrite (proj1 (sextet_char _ L1)), (proj1 (sextet_char _ L2)).
    cbv zeta. rewrite (byte_back _ a E1). reflexivity.
  - pose proof (byte_below a) as Ha. pose proof (byte_below b) as Hb.
    destruct (byte_parts _ Ha) as [A3 _]. destruct (byte_parts _ Hb) as [_ [B4 _]].
    destruct (bits_first (Byte.to_N a) _ Ha B4) as [L1 [L2 E1]].
    destruct (bits_second _ (Byte.to_N b) 0 A3 Hb ltac:(reflexivity)) as [L3 E2].
    rewrite N.lor_0_r in L3, E2.
    cbn [Js.base64_encode]. cbv zeta.
    change "=" with (String "=" EmptyString).
    rewrite decode_quad.
    rewrite (proj1 (sextet_char _ L1)), (proj1 (sextet_char _ L2)),
      (proj1 (sextet_char _ L3)).
    cbv zeta. rewrite (proj2 (sextet_char _ L3)).
    rewrite (byte_back _ a E1), (byte_back _ b E2). reflexivity.
  - pose proof (byte_below a) as Ha. pose proof (byte_below b) as Hb.
    pose proof (byte_below c) as Hc.
    destruct (byte_parts _ Ha) as [A3 _].
    destruct (byte_parts _ Hb) as [_ [B4 [B15 _]]].
    destruct (byte_parts _ Hc) as [_ [_ [_ C6]]].
    destruct (bits_first (Byte.to_N a) _ Ha B4) as [L1 [L2 E1]].
    destruct (bits_second _ (Byte.to_N b) _ A3 Hb C6) as [L3 E2].
    destruct (bits_third _ (Byte.to_N c) B15 Hc) as [L4 E3].
    cbn [Js.base64_encode]. cbv zeta.
    rewrite decode_quad.
    rewrite (proj1 (sextet_char _ L1)), (proj1 (sextet_char _ L2)),
      (proj1 (sextet_char _ L3)), (proj1 (sextet_char _ L4)).
    cbv zeta. rewrite (proj2 (sextet_char _ L3)), (proj2 (sextet_char _ L4)).
    rewrite (IH rest).
    rewrite (byte_back _ a E1), (byte_back _ b E2), (byte_back _ c E3).
    reflexivity.
Qed.

(** Four characters for every three bytes begun. *)
Lemma base64_length :
  forall bs : Js.Buffer,
    String.length (Js.base64_encode bs) = 4 * ((length bs + 2) / 3).
Proof.
  fix IH 1. intros [|a [|b [|c rest]]]; try reflexivity.
  cbn [Js.base64_encode]. cbv zeta. cbn [String.length length].
  rewrite (IH rest).
  replace (S (S (S (length rest))) + 2) with (length rest + 2 + 1 * 3) by lia.
  rewrite Nat.div_add by lia. lia.
Qed.

End Base64.

(* ===================================================================== *)
(** ** Further properties: theorems *)
(* ===================================================================== *)

(** X1. Over any calls on an event, every [abort()], [fail()] and
    [fulfill()] sends one command, and [continue()], [deferToBrowser()] and
    the constructor together send at most one more: the number of commands
    sent lies between the number of unguarded calls and that number plus
    one. *)
Theorem sent_count_bounds (s : nat) (p : Params) (hs : list handler)
    (calls : list (handler * call)) :
  count_unguarded calls <= length (sent (run calls (new s p hs))) /\
  length (sent (run calls (new s p hs))) <= S (count_unguarded calls).
Proof.
  destruct (run_sent_bounds calls (new s p hs)) as [Lo Hi].
  destruct hs as [|h rest].
  - rewrite new_empty in Lo, Hi. unfold sent in Lo, Hi. simpl in Lo, Hi.
    rewrite new_empty. unfold sent. lia.
  - rewrite new_first in Lo, Hi. unfold sent in Lo, Hi. simpl in Lo, Hi.
    rewrite new_first. unfold sent. lia.
Qed.

(** X2. After any calls, [done_] is true exactly when the event has sent a
    command. *)
Theorem done_iff_sent (s : nat) (p : Params) (hs : list handler)
    (calls : list (handler * call)) :
  done_ (this (run calls (new s p hs))) = true <->
  sent (run calls (new s p hs)) <> [].
Proof.
  apply run_done_sent, new_done_sent.
Qed.

(** X3. Every command an event sends goes to the session it was built with,
    carries the request id of its notification under [requestId], and is one
    of [Fetch.failRequest], [Fetch.continueRequest] and
    [Fetch.fulfillRequest]. *)
Theorem every_command_stamped (s : nat) (p : Params) (hs : list handler)
    (calls : list (handler * call)) (s' : nat) (cmd : command) :
  In (Sent s' cmd) (trace (run calls (new s p hs))) ->
  s' = s /\
  Protocol.get (parameters cmd) "requestId" = Some (VString (requestId p)) /\
  (method_name cmd = "Fetch.failRequest" \/
   method_name cmd = "Fetch.continueRequest" \/
   method_name cmd = "Fetch.fulfillRequest").
Proof.
  intros Hin.
  assert (F : session_ (this (new s p hs)) = s /\ params_ (this (new s p hs)) = p)
    by (destruct hs; split; reflexivity).
  destruct F as [Fs Fp].
  destruct (run_stamped calls s p (new s p hs) Fs Fp s' cmd Hin) as [Hold|Hnew];
    [|exact Hnew].
  destruct hs as [|h rest].
  - rewrite new_empty in Hold. destruct Hold as [H|[]]. inversion H; subst.
    simpl. auto.
  - rewrite new_first in Hold. destruct Hold as [H|[]]. discriminate H.
Qed.

(** The command of [deferToBrowser({url: ...})] after a [continue()]. *)
Lemma every_command_stamped_witness :
  Sample.session = Sample.session /\
  Protocol.get
    [("url", VString "https://other/"); ("requestId", VString "interception-1")]
    "requestId" = Some (VString "interception-1") /\
  ("Fetch.continueRequest" = "Fetch.failRequest" \/
   "Fetch.continueRequest" = "Fetch.continueRequest" \/
   "Fetch.continueRequest" = "Fetch.fulfillRequest").
Proof.
  apply (every_command_stamped Sample.session Sample.params Sample.three
           [(0, CallContinue);
            (1, CallDeferToBrowser
                  (Some {| overrides_url := Some "https://other/";
                           overrides_method := None;
                           overrides_headers := None |}))]
           Sample.session
           (Command "Fetch.continueRequest"
              [("url", VString "https://other/");
               ("requestId", VString "interception-1")])).
  vm_compute. right. right. left. reflexivity.
Defined.

(** X4. The error thrown by [resolve_] has the message "Already resolved
    given request" and occurs only after the event has sent a command. *)
Theorem conflict_follows_send (s : nat) (p : Params) (hs : list handler)
    (calls : list (handler * call)) (pre post : list effect) (m : string) :
  trace (run calls (new s p hs)) = pre ++ Threw m :: post ->
  sent_of pre <> [] /\ m = "Already resolved given request".
Proof.
  apply (run_conflict_after_send calls (new s p hs)).
  - intros D. apply new_done_sent. exact D.
  - intros pre' m' post' H. exfalso. destruct hs as [|h rest].
    + rewrite new_empty in H. destruct pre' as [|e [|e' pre']]; discriminate H.
    + rewrite new_first in H. destruct pre' as [|e [|e' pre']]; discriminate H.
Qed.

(** [continue()] twice on an event without further handlers. *)
Lemma conflict_follows_send_witness :
  sent_of [Invoked 0;
           Sent Sample.session
             (Command "Fetch.continueRequest"
                [("requestId", VString "interception-1")])] <> [] /\
  "Already resolved given request" = "Already resolved given request".
Proof.
  apply (conflict_follows_send Sample.session Sample.params [0]
           [(0, CallContinue); (0, CallContinue)]
           [Invoked 0;
            Sent Sample.session
              (Command "Fetch.continueRequest"
                 [("requestId", VString "interception-1")])]
           [] "Already resolved given request").
  reflexivity.
Defined.

(** X5. After any calls, of which [c] are calls of [continue()], the
    handlers invoked are the first [c + 1] of the registration list, in
    registration order, and the queue holds the rest. *)
Theorem invoked_prefix (s : nat) (p : Params) (hs : list handler)
    (calls : list (handler * call)) :
  invoked (run calls (new s p hs)) =
    firstn (S (length (continue_callers calls))) hs /\
  handlers_ (this (run calls (new s p hs))) =
    skipn (S (length (continue_callers calls))) hs.
Proof.
  pose proof (invoked_count s p hs calls) as L.
  assert (E : invoked (run calls (new s p hs)) ++
              handlers_ (this (run calls (new s p hs))) = hs).
  { rewrite run_queue. destruct hs; reflexivity. }
  set (w := run calls (new s p hs)) in *.
  set (c := length (continue_callers calls)) in *.
  assert (A : invoked w = firstn (length (invoked w)) hs).
  { rewrite <- E at 1. rewrite firstn_app, Nat.sub_diag, firstn_all. simpl.
    rewrite app_nil_r. reflexivity. }
  assert (B : handlers_ (this w) = skipn (length (invoked w)) hs).
  { rewrite <- E at 1. rewrite skipn_app, Nat.sub_diag, skipn_all. reflexivity. }
  rewrite A, B, L. clear A B E L.
  destruct (Nat.le_gt_cases (S c) (length hs)) as [Hle|Hgt].
  - rewrite Nat.min_r by exact Hle. split; reflexivity.
  - rewrite Nat.min_l by lia.
    rewrite firstn_all, skipn_all, firstn_all2, skipn_all2 by lia.
    split; reflexivity.
Qed.

(** X6. When the registered handlers are distinct, no handler is invoked
    twice, whatever is called. *)
Theorem no_handler_twice (s : nat) (p : Params) (hs : list handler)
    (calls : list (handler * call)) :
  NoDup hs -> NoDup (invoked (run calls (new s p hs))).
Proof.
  apply invoked_once.
Qed.

Lemma no_handler_twice_witness :
  NoDup (invoked (run [(0, CallContinue); (0, CallContinue); (0, CallContinue)]
                    (new Sample.session Sample.params Sample.three))).
Proof.
  apply (no_handler_twice Sample.session Sample.params Sample.three).
  unfold Sample.three. repeat constructor; simpl; intuition lia.
Defined.

(** X7. A resolved event stays resolved, and from then on only [abort()],
    [fail()] and [fulfill()] send: the commands sent grow by exactly the
    number of those calls. *)
Theorem resolved_for_good (calls : list (handler * call)) (w : world) :
  done_ (this w) = true ->
  done_ (this (run calls w)) = true /\
  length (sent (run calls w)) = length (sent w) + count_unguarded calls.
Proof.
  intros D. split; [apply run_resolved_stays; exact D|].
  destruct (run_sent_bounds calls w) as [Lo Hi]. rewrite D in Hi. lia.
Qed.

Lemma resolved_for_good_witness :
  done_ (this (run [(0, CallDeferToBrowser None); (0, CallContinue); (0, CallFail)]
                 (new Sample.session Sample.params []))) = true /\
  length (sent (run [(0, CallDeferToBrowser None); (0, CallContinue); (0, CallFail)]
                  (new Sample.session Sample.params []))) =
  length (sent (new Sample.session Sample.params [])) +
  count_unguarded [(0, CallDeferToBrowser None); (0, CallContinue); (0, CallFail)].
Proof.
  apply (resolved_for_good
           [(0, CallDeferToBrowser None); (0, CallContinue); (0, CallFail)]
           (new Sample.session Sample.params [])).
  reflexivity.
Defined.



(** X10. When [fulfill] is given a truthy body (any Buffer, also an empty
    one, or a non-empty string) and supplied headers with ASCII names, none
    of which is content-length in any letter case, the header list sent is
    the supplied headers, lower-cased, in order, followed by one
    [content-length] entry; its value is the decimal numeral of the body's
    byte length and reads back as that number. *)
Theorem fulfill_computed_content_length (w : world) (options : FulfillOptions) :
  Js.truthy_body (body options) = true ->
  (forall k v, In (k, v) (supplied options) -> ascii_only k = true) ->
  (forall k v, In (k, v) (supplied options) ->
               Js.toLowerCase k <> "content-length") ->
  trace (step (CallFulfill options) w) =
    trace w ++
    [Sent (session_ (this w))
       (Command "Fetch.fulfillRequest"
          [("requestId", VString (requestId (params_ (this w))));
           ("responseCode", VNumber (Js.or_number (status options) 200));
           ("responseHeaders",
            VHeaderList
              (map (fun kv => HeaderEntry (Js.toLowerCase (fst kv)) (snd kv))
                 (supplied options) ++
               [HeaderEntry "content-length"
                  (Js.String_of_nat (Js.byteLength (body options)))]));
           ("body",
            VString (Js.toString_base64 (Js.or_empty_buffer (body options))))])]
  /\
  option_map Nat.of_uint
    (NilEmpty.uint_of_string (Js.String_of_nat (Js.byteLength (body options)))) =
  Some (Js.byteLength (body options)).
Proof.
  intros Hb _ Hno. split.
  - rewrite step_fulfill. unfold fulfillRequest.
    rewrite response_headers_shape, Hb, (no_supplied_content_length _ Hno).
    reflexivity.
  - unfold Js.String_of_nat. rewrite NilEmpty.usu. simpl.
    rewrite DecimalNat.Unsigned.of_to. reflexivity.
Qed.

(** An empty Buffer is a body: its length header is "0". *)
Lemma fulfill_computed_content_length_witness :
  trace (step (CallFulfill {| status := None;
                              headers_ := Some [("Content-Type", "text/html")];
                              body := Js.BodyBuffer [] |})
           (new Sample.session Sample.params [0])) =
    [Invoked 0;
     Sent Sample.session
       (Command "Fetch.fulfillRequest"
          [("requestId", VString "interception-1");
           ("responseCode", VNumber 200);
           ("responseHeaders",
            VHeaderList [HeaderEntry "content-type" "text/html";
                         HeaderEntry "content-length" "0"]);
           ("body", VString EmptyString)])].
Proof.
  apply (proj1 (fulfill_computed_content_length
                  (new Sample.session Sample.params [0])
                  {| status := None;
                     headers_ := Some [("Content-Type", "text/html")];
                     body := Js.BodyBuffer [] |}
                  eq_refl
                  ltac:(intros k v [H|[]]; inversion H; subst; reflexivity)
                  ltac:(intros k v [H|[]]; inversion H; subst; discriminate))).
Defined.

(** X11. When [fulfill] is given no body (or the empty string) and supplied
    headers with ASCII names, nothing is appended to the header list, also
    when no content-length was supplied: the list is the supplied headers,
    lower-cased, in order, and the body sent is the empty text. *)
Theorem fulfill_without_body (w : world) (options : FulfillOptions) :
  Js.truthy_body (body options) = false ->
  (forall k v, In (k, v) (supplied options) -> ascii_only k = true) ->
  trace (step (CallFulfill options) w) =
    trace w ++
    [Sent (session_ (this w))
       (Command "Fetch.fulfillRequest"
          [("requestId", VString (requestId (params_ (this w))));
           ("responseCode", VNumber (Js.or_number (status options) 200));
           ("responseHeaders",
            VHeaderList
              (map (fun kv => HeaderEntry (Js.toLowerCase (fst kv)) (snd kv))
                 (supplied options)));
           ("body", VString EmptyString)])].
Proof.
  intros Hb _. rewrite step_fulfill. unfold fulfillRequest.
  rewrite response_headers_shape, Hb. simpl. rewrite app_nil_r.
  unfold Js.or_empty_buffer. rewrite Hb. reflexivity.
Qed.

Lemma fulfill_without_body_witness :
  trace (step (CallFulfill {| status := Some 204%Z;
                              headers_ := Some [("X-Served-By", "carlo")];
                              body := Js.BodyUndefined |})
           (new Sample.session Sample.params [0])) =
    [Invoked 0;
     Sent Sample.session
       (Command "Fetch.fulfillRequest"
          [("requestId", VString "interception-1");
           ("responseCode", VNumber 204);
           ("responseHeaders", VHeaderList [HeaderEntry "x-served-by" "carlo"]);
           ("body", VString EmptyString)])].
Proof.
  apply (fulfill_without_body (new Sample.session Sample.params [0])
           {| status := Some 204%Z;
              headers_ := Some [("X-Served-By", "carlo")];
              body := Js.BodyUndefined |}).
  - reflexivity.
  - intros k v [H|[]]. inversion H; subst. reflexivity.
Defined.

(** X12. No header name [fulfill] sends has an upper-case ASCII letter,
    whatever headers and body it is given. *)
Theorem fulfill_names_lower_case (w : world) (options : FulfillOptions) :
  exists l,
    trace (step (CallFulfill options) w) =
      trace w ++
      [Sent (session_ (this w))
         (Command "Fetch.fulfillRequest"
            [("requestId", VString (requestId (params_ (this w))));
             ("responseCode", VNumber (Js.or_number (status options) 200));
             ("responseHeaders", VHeaderList l);
             ("body",
              VString (Js.toString_base64 (Js.or_empty_buffer (body options))))])]
    /\ forall e, In e l -> no_upper (name e) = true.
Proof.
  exists (response_headers options). split.
  - rewrite step_fulfill. reflexivity.
  - intros e He. rewrite response_headers_shape in He.
    apply in_app_or in He. destruct He as [He|He].
    + apply in_map_iff in He. destruct He as [[k v] [E _]]. subst e.
      apply toLowerCase_no_upper.
    + destruct (Js.truthy_body (body options) &&
                negb (existsb names_content_length (supplied options)));
        [|destruct He].
      destruct He as [E|[]]. subst e. reflexivity.
Qed.

(** X13. For every Buffer handed to [fulfill] as body, the body sent is its
    base64 text: it decodes back to exactly the bytes of the Buffer, and has
    four characters for every three bytes begun. *)
Theorem fulfill_body_round_trip (w : world) (st : option Z)
    (hdrs : option header_map) (b : Js.Buffer) :
  exists l text,
    trace (step (CallFulfill {| status := st;
                                headers_ := hdrs;
                                body := Js.BodyBuffer b |}) w) =
      trace w ++
      [Sent (session_ (this w))
         (Command "Fetch.fulfillRequest"
            [("requestId", VString (requestId (params_ (this w))));
             ("responseCode", VNumber (Js.or_number st 200));
             ("responseHeaders", VHeaderList l);
             ("body", VString text)])]
    /\ Js.base64_decode text = Some b
    /\ String.length text = 4 * ((length b + 2) / 3).
Proof.
  exists (response_headers {| status := st; headers_ := hdrs;
                              body := Js.BodyBuffer b |}).
  exists (Js.base64_encode b).
  split; [|split].
  - rewrite step_fulfill. reflexivity.
  - apply base64_round_trip.
  - apply base64_length.
Qed.

(** X14. Handlers that make their calls while they run: whatever their
    bodies, the constructor returns as soon as the fuel covers the
    registration list, and the event it leaves is the one the calls made,
    taken one after the other, lead to; each call comes from a handler that
    had been invoked. *)
Theorem handlers_in_place (body : handler -> list call) (fuel : nat)
    (s : nat) (p : Params) (hs : list handler) :
  length hs <= fuel ->
  exists w made,
    Nested.construct body fuel s p hs = Some (w, made) /\
    run made (new s p hs) = w /\
    callers_invoked made (new s p hs) = true.
Proof.
  apply construct_run.
Qed.

Lemma handlers_in_place_witness :
  exists w made,
    Nested.construct Sample.continue_twice 3 Sample.session Sample.params
      Sample.three = Some (w, made) /\
    run made (new Sample.session Sample.params Sample.three) = w /\
    callers_invoked made (new Sample.session Sample.params Sample.three) = true.
Proof.
  apply (handlers_in_place Sample.continue_twice 3 Sample.session Sample.params
           Sample.three).
  simpl. lia.
Defined.

(** X15. Every method call on the event has exactly one effect, a command,
    a handler invocation or the error: after the constructor and [n] calls
    the trace has [n + 1] entries. *)
Theorem one_effect_per_call (s : nat) (p : Params) (hs : list handler)
    (calls : list (handler * call)) :
  length (trace (run calls (new s p hs))) = S (length calls).
Proof.
  rewrite run_trace_length. destruct hs as [|h rest].
  - rewrite new_empty. reflexivity.
  - rewrite new_first. reflexivity.
Qed.
